(** * funpy: trigonometric representations and the deflated Newton residual

    A shallow embedding of [funpy/trig/trigtech.py] and
    [newton/deflated_residual.py].

    Python objects become records, in-place updates of [self] become
    explicit state passing (a method returns the updated object next to
    its result), and a raised exception is the [Raise] case of [outcome].
    Arithmetic on [float64]/[complex128] and the collaborators that live
    outside the two files (FFT, sparse matrices, the collocation object,
    the chopping rule, the refinement strategy) are interfaces: every
    general theorem holds for any implementation of them.  Concrete
    evaluations use exact rational arithmetic. *)

From Stdlib Require Import ZArith QArith List Bool String Lia.
From stdpp Require Import base list pretty.

Local Open Scope Z_scope.

(** ** Python runtime: exceptions and results *)

Inductive exn : Type :=
| AssertionError (msg : string)
| RuntimeError (msg : string)
| AttributeError
| IndexError
| UnboundLocalError
| TypeError
| ValueError
| NotImplementedError.

Inductive outcome (A : Type) : Type :=
| Ok (a : A)
| Raise (e : exn).
Arguments Ok {A} a.
Arguments Raise {A} e.

Definition obind {A B} (c : outcome A) (k : A -> outcome B) : outcome B :=
  match c with
  | Ok a => k a
  | Raise e => Raise e
  end.

Notation "x <- c ;; k" := (obind c (fun x => k))
  (at level 100, c at next level, right associativity).

Definition is_ok {A} (c : outcome A) : bool :=
  match c with Ok _ => true | Raise _ => false end.

(** The exception a computation ended with, if any. *)
Definition raised {A} (c : outcome A) : option exn :=
  match c with Ok _ => None | Raise e => Some e end.

(** Python truthiness of a list: [if not xs] holds exactly for []. *)
Definition truthy_list {A} (xs : list A) : bool :=
  match xs with [] => false | _ :: _ => true end.

(** ** newton/deflated_residual.py *)

(** The argument [u] of the constructor and of [rhs] is either a state
    wrapper, which carries the function in its attribute [u], or a raw
    state, which has no such attribute. *)
Inductive state (Fun : Type) : Type :=
| StateWrapper (u : Fun)
| RawState (f : Fun).
Arguments StateWrapper {Fun} u.
Arguments RawState {Fun} f.

(** The collaborators of the deflated residual: scalars and numpy vectors,
    scipy sparse matrices, function objects with their norm, the
    collocation object and [support.Functional]. *)
Class LinAlg : Type := {
  Scal : Type;                       (* a numpy scalar *)
  s_one : Scal;                      (* 1. *)
  s_two : Scal;                      (* 2 *)
  s_add : Scal -> Scal -> Scal;
  s_mul : Scal -> Scal -> Scal;
  s_div : Scal -> Scal -> Scal;
  s_neg : Scal -> Scal;
  s_pow : Scal -> Scal -> Scal;            (* x ** y *)
  Vec : Type;                     (* a numpy vector *)
  v_add : Vec -> Vec -> Vec;
  v_scal : Scal -> Vec -> Vec;       (* scalar * vector, elementwise *)
  v_sub : Vec -> Vec -> Vec;
  v_div : Vec -> Scal -> Vec;
  Mat : Type;                     (* a scipy sparse matrix *)
  mul_vector : Mat -> Vec -> Vec; (* M._mul_vector(c) *)
  mat_dot : Mat -> Vec -> Vec;    (* Pf.dot(x) *)
  transpose : Mat -> Mat;
  mat_shape0 : Mat -> Z;
  Fun : Type;                     (* a function object *)
  f_sub : Fun -> Fun -> Fun;
  f_add : Fun -> Fun -> Fun;
  f_scal : Scal -> Fun -> Fun;
  f_div : Fun -> Scal -> Fun;
  zeros_like : Fun -> Fun;
  f_shape0 : Fun -> Z;            (* f.shape[0] *)
  f_size : Fun -> Z;              (* np.product(f.shape) *)
  f_prolong : Fun -> Z -> Fun;
  h1norm : Fun -> Scal;
  Operator : Type;                (* the nonlinear operator source *)
  Colloc : Type;                  (* operator.discretize(u, par=par) *)
  discretize : Operator -> state Fun -> bool -> Colloc;
  n_disc : Operator -> Z;
  colloc_matrix : Colloc -> Mat * Mat * Mat;
  colloc_P : Colloc -> Mat;
  colloc_rhs0 : Colloc -> Vec;                 (* colloc.rhs() *)
  colloc_rhs : Colloc -> state Fun -> Vec;     (* colloc.rhs(u) *)
  colloc_name : Colloc -> string;
  Functional : Fun -> Z -> string -> Vec -> Scal  (* Functional(function, order, basis)(c) *)
}.

Module Newton.
Section DeflatedResidual.
Context `{LA : LinAlg}.

(** [u.u] *)
Definition getattr_u (u : state Fun) : outcome Fun :=
  match u with
  | StateWrapper f => Ok f
  | RawState _ => Raise AttributeError
  end.

(** The function a state holds, whichever way it is packaged. *)
Definition payload (u : state Fun) : Fun :=
  match u with StateWrapper f => f | RawState f => f end.

(** [u.prolong(n)] resamples the object in place; it keeps its class. *)
Definition state_prolong (u : state Fun) (n : Z) : state Fun :=
  match u with
  | StateWrapper f => StateWrapper (f_prolong f n)
  | RawState f => RawState (f_prolong f n)
  end.

(** Keyword arguments read with [kwargs.get]. *)
Record kwargs : Type := {
  kw_ks : option (list Fun);
  kw_shift : option Scal;
  kw_power : option Scal
}.

Record DeflatedResidual : Type := {
  colloc : Colloc;
  M : Mat;
  P : Mat;
  S_ : Mat;
  proj : Mat;
  b : Vec;
  MT : option Mat;
  shape0 : Z;
  explicit : bool;
  known_solutions : list Fun;
  shift : Scal;
  power : Scal;
  eta : Scal;
  functional : option (Vec -> Scal)
}.

Definition set_MT (self : DeflatedResidual) (t : option Mat) : DeflatedResidual :=
  {| colloc := colloc self; M := M self; P := P self; S_ := S_ self;
     proj := proj self; b := b self; MT := t; shape0 := shape0 self;
     explicit := explicit self; known_solutions := known_solutions self;
     shift := shift self; power := power self; eta := eta self;
     functional := functional self |}.

(** [__deflation]: the product of the deflation factors at [u]. *)
Definition deflation_factor (shift power : Scal) (u ks : Fun) : Scal :=
  s_add shift (s_div s_one (s_pow (h1norm (f_sub u ks)) power)).

Definition __deflation (known : list Fun) (shift power : Scal) (u : Fun) : Scal :=
  if negb (truthy_list known) then s_one
  else fold_left (fun eta ks => s_mul eta (deflation_factor shift power u ks))
                 known s_one.

(** One pass of the loop of [__compute_der_deflation]: the running
    product [eta] and the running sum [function]. *)
Definition der_step (shift power : Scal) (u : Fun) (acc : Scal * Fun) (ks : Fun) : Scal * Fun :=
  let '(eta, function) := acc in
  let diff := f_sub u ks in
  let diff_norm := h1norm diff in
  let defl := s_add shift (s_div s_one (s_pow diff_norm power)) in
  (s_mul eta defl,
   f_add function (f_div diff (s_mul defl (s_pow diff_norm (s_add s_two power))))).

Definition __compute_der_deflation (col : Colloc) (known : list Fun)
    (shift power : Scal) (u : Fun) : Scal * option (Vec -> Scal) :=
  if negb (truthy_list known) then (s_one, None)
  else
    let '(eta, function) :=
      fold_left (der_step shift power u) known (s_one, zeros_like u) in
    let function := f_scal (s_mul (s_neg power) eta) function in
    let function :=
      if 0 <? Z.abs (f_shape0 function - f_shape0 u)
      then f_prolong function (f_shape0 u) else function in
    (eta, Some (Functional function 1 (colloc_name col))).

(** [DeflatedResidual.__init__].  The constructor may resample [u] in
    place, so the updated [u] is returned with the operator. *)
Definition __init__ (u : state Fun) (operator : Operator) (par : bool)
    (kw : kwargs) : outcome (state Fun * DeflatedResidual) :=
  let col := discretize operator u par in
  let '(m, p, s) := colloc_matrix col in
  let b0 := colloc_rhs0 col in
  let u := if negb (f_size (payload u) =? mat_shape0 m)
           then state_prolong u (n_disc operator) else u in
  let known := default [] (kw_ks kw) in
  let shift := default s_one (kw_shift kw) in
  let power := default s_two (kw_power kw) in
  der <-
     match getattr_u u with
     | Ok uu => Ok (__compute_der_deflation col known shift power uu)
     | Raise AttributeError =>
         Ok (__compute_der_deflation col known shift power (payload u))
     | Raise e => Raise e
     end ;;
  let '(eta, functional) := der in
  let b1 := if truthy_list known then v_scal eta b0 else b0 in
  Ok (u, {| colloc := col; M := m; P := p; S_ := s; proj := colloc_P col;
            b := b1; MT := None; shape0 := mat_shape0 m; explicit := false;
            known_solutions := known; shift := shift; power := power;
            eta := eta; functional := functional |}).

(** [rhs]: the residual at a new state. *)
Definition rhs (self : DeflatedResidual) (u : state Fun) : outcome Vec :=
  let res := colloc_rhs (colloc self) u in
  if negb (truthy_list (known_solutions self)) then Ok res
  else
    uu <- getattr_u u ;;
    let eta := __deflation (known_solutions self) (shift self) (power self) uu in
    Ok (v_scal eta res).

(** Calling [self.functional]: [None] is not callable. *)
Definition call_functional (f : option (Vec -> Scal)) (c : Vec) : outcome Scal :=
  match f with
  | Some g => Ok (g c)
  | None => Raise TypeError
  end.

Definition _matvec (self : DeflatedResidual) (c : Vec) : outcome Vec :=
  if negb (truthy_list (known_solutions self)) then Ok (mul_vector (M self) c)
  else
    deta <- call_functional (functional self) c ;;
    Ok (v_add (v_scal (eta self) (mul_vector (M self) c)) (v_scal deta (b self))).

(** [_rmatvec] caches the transpose in [self.MT], so it returns the
    updated operator next to the result. *)
Definition _rmatvec (self : DeflatedResidual) (x : Vec)
    : DeflatedResidual * outcome Vec :=
  let mt := match MT self with None => transpose (M self) | Some t => t end in
  let self := set_MT self (Some mt) in
  (self,
   if negb (truthy_list (known_solutions self)) then Ok (mul_vector mt x)
   else
     deta <- call_functional (functional self) x ;;
     _ <- (Raise (AssertionError "FIXME!") : outcome unit) ;;
     Ok (v_add (v_scal (eta self) (mul_vector mt x)) (v_scal deta (b self)))).

Definition to_matrix (self : DeflatedResidual) (tosparse : DeflatedResidual -> Mat) : Mat :=
  if negb (truthy_list (known_solutions self)) then M self else tosparse self.

(** *** DeflatedResidualPrecond *)

Record DeflatedResidualPrecond : Type := {
  Pf : Mat;
  PfT : option Mat;
  pb : Vec;
  pks : Z;
  peta : Scal;
  pfunctional : option (Vec -> Scal);
  denom : option Scal
}.

Definition set_PfT (self : DeflatedResidualPrecond) (t : option Mat)
    : DeflatedResidualPrecond :=
  {| Pf := Pf self; PfT := t; pb := pb self; pks := pks self;
     peta := peta self; pfunctional := pfunctional self; denom := denom self |}.

Definition precond_init (pf : Mat) (rhs0 : Vec) (ks : option Z) (eta0 : option Scal)
    (fn : option (Vec -> Scal)) : DeflatedResidualPrecond :=
  let e := default s_one eta0 in
  {| Pf := pf; PfT := None; pb := rhs0; pks := default 0 ks; peta := e;
     pfunctional := fn;
     denom := match fn with
              | Some g => Some (s_add (s_pow e s_two) (g rhs0))
              | None => None
              end |}.

(** [DeflatedResidual.precond] *)
Definition precond (self : DeflatedResidual) : DeflatedResidualPrecond :=
  precond_init (P self) (b self)
    (Some (Z.of_nat (length (known_solutions self))))
    (Some (eta self)) (functional self).

Definition precond_matvec (self : DeflatedResidualPrecond) (x : Vec) : outcome Vec :=
  if pks self =? 0 then Ok (mat_dot (Pf self) x)
  else
    let term1 := mat_dot (Pf self) x in
    f1 <- call_functional (pfunctional self) term1 ;;
    d <- match denom self with Some d => Ok d | None => Raise AttributeError end ;;
    let term2 := v_scal (s_div f1 d) (pb self) in
    Ok (v_div (v_sub term1 term2) (peta self)).

Definition precond_rmatvec (self : DeflatedResidualPrecond) (x : Vec)
    : DeflatedResidualPrecond * outcome Vec :=
  let pt := match PfT self with None => transpose (Pf self) | Some t => t end in
  let self := set_PfT self (Some pt) in
  (self,
   if pks self =? 0 then Ok (mat_dot pt x)
   else Raise (AssertionError "FIXME")).

End DeflatedResidual.
End Newton.

(** ** funpy/trig/trigtech.py *)

(** numpy arithmetic: [F] is float64, [C] is complex128.  No law is
    assumed of the operations. *)
Class Numeric : Type := {
  F : Type;
  C : Type;
  F0 : F;                         (* 0. *)
  F1 : F;                         (* 1. *)
  F2 : F;                         (* 2 *)
  F3 : F;                         (* 3 *)
  F10 : F;                        (* 1e1 *)
  Fhalf : F;                      (* 0.5 *)
  F1em10 : F;                     (* 1e-10 *)
  Fpi : F;                        (* np.pi *)
  Fprobe : F;                     (* 2 * 0.376989633393435 - 1 *)
  Fmul : F -> F -> F;
  Fadd : F -> F -> F;
  Fltb : F -> F -> bool;          (* x < y *)
  Fleb : F -> F -> bool;          (* x <= y *)
  Fabs : F -> F;
  Fhypot : F -> F -> F;
  Fnonzero : F -> bool;           (* truth value of a float *)
  C0 : C;
  Ci : C;                         (* 1j *)
  Cadd : C -> C -> C;
  Cmul : C -> C -> C;
  Cdiv : C -> C -> C;
  Cneg : C -> C;
  Cconj : C -> C;
  Cpow : C -> Z -> C;             (* z ** k, k an integer *)
  Creal : C -> F;
  Cimag : C -> F;
  Cabs : C -> F;
  CofF : F -> C;
  CofZ : Z -> C;
  Cisnan : C -> bool;
  Cisinf : C -> bool
}.

Module Trig.
Section Arrays.
Context `{NU : Numeric}.

(** A two-dimensional array is the list of its rows; an array with no
    rows is taken to have no columns. *)
Definition matrix : Type := list (list C).
Definition fmatrix : Type := list (list F).

Definition nrows {A} (a : list (list A)) : Z := Z.of_nat (length a).
Definition ncols {A} (a : list (list A)) : Z :=
  match a with [] => 0 | r :: _ => Z.of_nat (length r) end.
(** [a.size], the number of entries. *)
Definition size {A} (a : list (list A)) : Z := Z.of_nat (length (concat a)).

(** [a[i, :]] for [0 <= i]: out of range raises IndexError. *)
Definition getrow {A} (a : list (list A)) (i : nat) : outcome (list A) :=
  match a !! i with
  | Some r => Ok r
  | None => Raise IndexError
  end.

(** [a[i, :] = r] in place. *)
Definition setrow {A} (a : list (list A)) (i : nat) (r : list A)
    : outcome (list (list A)) :=
  if decide (i < length a)%nat then Ok (<[i := r]> a) else Raise IndexError.

(** [a[:, k]] *)
Definition column (a : matrix) (k : nat) : list C :=
  map (fun r => nth k r C0) a.
Definition columns (a : matrix) : list (list C) :=
  map (column a) (seq 0 (Z.to_nat (ncols a))).

(** [a[i:j:-1, :]] for [0 <= i], [0 <= j]: rows i, i-1, ..., j+1. *)
Definition slice_down {A} (a : list A) (i j : nat) : list A :=
  rev (drop (S j) (take (S i) a)).

Definition zero_row (m : nat) : list C := repeat C0 m.
Definition fmat_add (a b : fmatrix) : fmatrix := zip_with (zip_with Fadd) a b.

(** A boolean mask over columns; a Python scalar or a one-element mask
    is broadcast. *)
Definition mask_at (mask : list bool) (j : nat) : bool :=
  match mask with
  | [x] => x
  | _ => nth j mask false
  end.
Definition scale_at (xs : list F) (j : nat) : F :=
  match xs with
  | [x] => x
  | _ => nth j xs F0
  end.

(** [values[:, isReal] = np.real(values[:, isReal])] *)
Definition force_real (mask : list bool) (v : matrix) : matrix :=
  map (imap (fun j z => if mask_at mask j then CofF (Creal z) else z)) v.

(** [np.max(x, axis=0)] of a float array. *)
Definition fcolumn (a : fmatrix) (k : nat) : list F := map (fun r => nth k r F0) a.
Definition fmax_list (xs : list F) : F :=
  match xs with
  | [] => F0
  | x :: rest => fold_left (fun acc y => if Fltb acc y then y else acc) rest x
  end.
Definition max_axis0 (a : fmatrix) : list F :=
  map (fun k => fmax_list (fcolumn a k)) (seq 0 (Z.to_nat (ncols a))).

(** [np.arange(lo, lo + count)] over the integers. *)
Definition arange (lo : Z) (count : nat) : list Z :=
  map (fun i => lo + Z.of_nat i) (seq 0 count).

(** [c * w] for a column vector [w] of shape (n, 1): every entry of row
    [r] of [c] is multiplied by [w[r]].  The row counts must agree. *)
Definition row_times (r : list C) (z : C) : list C := map (fun x => Cmul x z) r.
Definition mul_rows (c : matrix) (w : list C) : outcome matrix :=
  if decide (length c = length w) then Ok (zip_with row_times c w)
  else Raise ValueError.

(** *** The representation *)

Record trigtech : Type := {
  maxLength : Z;
  eps : F;
  hscale : F;
  vscale : F;
  ishappy : bool;
  isReal : list bool;
  coeffs : matrix;
  values : matrix
}.

Definition n (f : trigtech) : Z := nrows (coeffs f).
Definition m (f : trigtech) : Z := ncols (coeffs f).

Definition set_coeffs (f : trigtech) (c : matrix) : trigtech :=
  {| maxLength := maxLength f; eps := eps f; hscale := hscale f;
     vscale := vscale f; ishappy := ishappy f; isReal := isReal f;
     coeffs := c; values := values f |}.
Definition set_values (f : trigtech) (v : matrix) : trigtech :=
  {| maxLength := maxLength f; eps := eps f; hscale := hscale f;
     vscale := vscale f; ishappy := ishappy f; isReal := isReal f;
     coeffs := coeffs f; values := v |}.
Definition set_ishappy (f : trigtech) (h : bool) : trigtech :=
  {| maxLength := maxLength f; eps := eps f; hscale := hscale f;
     vscale := vscale f; ishappy := h; isReal := isReal f;
     coeffs := coeffs f; values := values f |}.
Definition set_isReal (f : trigtech) (r : list bool) : trigtech :=
  {| maxLength := maxLength f; eps := eps f; hscale := hscale f;
     vscale := vscale f; ishappy := ishappy f; isReal := r;
     coeffs := coeffs f; values := values f |}.
Definition set_vscale (f : trigtech) (v : F) : trigtech :=
  {| maxLength := maxLength f; eps := eps f; hscale := hscale f;
     vscale := v; ishappy := ishappy f; isReal := isReal f;
     coeffs := coeffs f; values := values f |}.

(** [const_index] *)
Definition const_index (f : trigtech) : Z :=
  if negb (n f mod 2 =? 0) then (n f + 1) / 2 - 1 else n f / 2.

(** Functions imported from the sibling modules of the package. *)
Class TrigExt : Type := {
  vals2coeffs : matrix -> matrix;
  coeffs2vals : matrix -> matrix;
  standardChopCmplx : list C -> F -> Z;
  simplify_coeffs : matrix -> list bool -> F -> matrix * matrix;
  prolong_ext : matrix -> Z -> list bool -> matrix * matrix;  (* trig_simplify.prolong *)
  quadwts : Z -> list F
}.
Context `{TE : TrigExt}.

(** [get_vscale]: a scalar is a one-element list. *)
Definition get_vscale (f : trigtech) : list F :=
  if size (coeffs f) =? 0 then [F0]
  else if n f =? 1 then concat (map (map Cabs) (coeffs f))
  else
    let vals := coeffs2vals (coeffs f) in
    max_axis0 (map (map (fun z => Fhypot (Creal z) (Cimag z))) vals).

(** [get_isreal] *)
Definition get_isreal (f : trigtech) (vscl : list F) : list bool :=
  imap (fun j x => Fleb x (Fmul (Fmul F3 (eps f)) (scale_at vscl j)))
       (max_axis0 (map (map (fun z => Fabs (Cimag z))) (values f))).

(** [np.maximum(self.vscale, self.get_vscale())] *)
Definition np_maximum (x : F) (ys : list F) : list F :=
  map (fun y => if Fltb x y then y else x) ys.

(** Keyword arguments of the constructor.  Only [eps], [hscale],
    [vscale], [ishappy] and [isReal] are read; [isreal] and [simplify],
    which the callers in this file pass, are left in [kwargs] unread. *)
Record tkwargs : Type := {
  kw_eps : option F;
  kw_hscale : option F;
  kw_vscale : option F;
  kw_ishappy : option bool;
  kw_isReal : option (list bool);
  kw_isreal : option (list bool);
  kw_simplify : option bool
}.

Definition no_kwargs : tkwargs :=
  {| kw_eps := None; kw_hscale := None; kw_vscale := None; kw_ishappy := None;
     kw_isReal := None; kw_isreal := None; kw_simplify := None |}.

(** The head of [__init__], shared by every branch. *)
Definition init_fields (kw : tkwargs) : trigtech :=
  let e := default F1em10 (kw_eps kw) in
  {| maxLength := 4096;
     eps := e;
     hscale := default e (kw_hscale kw);
     vscale := default e (kw_vscale kw);
     ishappy := default false (kw_ishappy kw);
     isReal := default [false] (kw_isReal kw);
     coeffs := [];
     values := [] |}.

(** [trigtech(values=..., coeffs=..., **kwargs)]: the branch
    [elif values is not None or coeffs is not None]. *)
Definition init_arrays (vals cfs : option matrix) (kw : tkwargs) : trigtech :=
  let self := init_fields kw in
  let self := match vals with Some v => set_values self v | None => self end in
  let self := match cfs with Some c => set_coeffs self c | None => self end in
  let self := if size (values self) =? 0
              then set_values self (coeffs2vals (coeffs self)) else self in
  let self := if size (coeffs self) =? 0
              then set_coeffs self (vals2coeffs (values self)) else self in
  let self := set_ishappy self true in
  let vscl := np_maximum (vscale self) (get_vscale self) in
  let self := set_isReal self (get_isreal self vscl) in
  set_values self (force_real (isReal self) (values self)).

(** *** diff *)

(** The wavenumbers of a representation of length [len]. *)
Definition waveNumber (len : Z) : list Z :=
  if Z.odd len then arange (- ((len - 1) / 2)) (Z.to_nat len)
  else arange (- (len / 2)) (Z.to_nat len).

Definition diff (f : trigtech) (order : Z) (axis : Z) : outcome trigtech :=
  if negb (axis =? 0)
  then Raise (AssertionError "Axis other than zero not implemented yet!")
  else
    let len := n f in
    let c := coeffs f in
    let w := map (fun k => Cpow (Cmul (Cmul Ci (CofF Fpi)) (CofZ k)) order)
                 (waveNumber len) in
    c <- mul_rows c w ;;
    Ok (init_arrays None (Some c)
          {| kw_eps := None; kw_hscale := None; kw_vscale := None;
             kw_ishappy := Some (ishappy f); kw_isReal := None;
             kw_isreal := Some (isReal f); kw_simplify := Some false |}).

(** *** cumsum *)

(** [np.any(x)] of a float row, then its comparison with a float: the
    boolean is read as 1.0 or 0.0. *)
Definition np_any (xs : list F) : bool := existsb Fnonzero xs.
Definition bool_gt (bv : bool) (y : F) : bool := Fltb y (if bv then F1 else F0).

(** Lines 622-634: the index that is tested and the zero-mean test.
    Nothing has been written when this part raises. *)
Definition cumsum_ind (len : Z) : Z :=
  if len mod 2 =? 0 then len / 2 + 1 else (len + 1) / 2.

Definition cumsum_check (f : trigtech) : outcome unit :=
  row <- getrow (coeffs f) (Z.to_nat (cumsum_ind (n f))) ;;
  if bool_gt (np_any (map Cabs row)) (Fmul (Fmul F10 (vscale f)) (eps f))
  then Raise (RuntimeError
    "Indefinite integrals are only possible for trigtech objects with zero mean!")
  else Ok tt.

(** Lines 637-646.  [c] is still the array stored in [f.coeffs], so the
    row assignments write into [f]; [np.vstack] then builds a fresh
    array.  The result is the array now stored in [f], the local [c] and
    [highestDegree]. *)
Definition cumsum_inplace (c : matrix) (len : Z)
    : outcome (matrix * matrix * Z) :=
  let cols := Z.to_nat (ncols c) in
  if len mod 2 =? 0 then
    c1 <- setrow c (Z.to_nat (len / 2)) (zero_row cols) ;;
    r0 <- getrow c1 0 ;;
    c2 <- setrow c1 0 (map (Cmul (CofF Fhalf)) r0) ;;
    r0 <- getrow c2 0 ;;
    Ok (c2, c2 ++ [r0], len / 2)
  else
    c1 <- setrow c (Z.to_nat ((len + 1) / 2)) (zero_row cols) ;;
    Ok (c1, c1, (len - 1) / 2).

(** [np.sum(x)] over every entry. *)
Definition np_sum (a : matrix) : C := fold_left Cadd (concat a) C0.

(** Lines 648-665, on the local array. *)
Definition cumsum_coeffs (c : matrix) (len hd order : Z) : outcome matrix :=
  let cols := Z.to_nat (ncols c) in
  let isEven := len mod 2 =? 0 in
  let sumIndices := arange (- hd) (Z.to_nat (2 * hd + 1)) in
  let integrationFactor :=
    map (fun k => Cpow (Cdiv (Cdiv (Cneg Ci) (CofZ k)) (CofF Fpi)) order)
        sumIndices in
  let integrationFactor := <[Z.to_nat hd := C0]> integrationFactor in
  c <- mul_rows c integrationFactor ;;
  c <- (if Z.odd order && isEven then
          c <- setrow c 0 (zero_row cols) ;;
          setrow c (Z.to_nat len) (zero_row cols)
        else Ok c) ;;
  signed <- mul_rows c (map (fun k => Cpow (CofZ (-1)) k) sumIndices) ;;
  c <- setrow c (Z.to_nat (hd + 1)) (repeat (Cneg (np_sum signed)) cols) ;;
  Ok (if isEven then take (length c - 1) c else c).

(** [cumsum(f, m)]: the representation [f] after the call, and the
    result. *)
Definition cumsum (f : trigtech) (order : Z) : trigtech * outcome trigtech :=
  match cumsum_check f with
  | Raise e => (f, Raise e)
  | Ok _ =>
    match cumsum_inplace (coeffs f) (n f) with
    | Raise e => (f, Raise e)
    | Ok (stored, c, hd) =>
      let f' := set_coeffs f stored in
      (f',
       c <- cumsum_coeffs c (n f) hd order ;;
       Ok (init_arrays None (Some c)
             {| kw_eps := None; kw_hscale := None; kw_vscale := None;
                kw_ishappy := Some (ishappy f); kw_isReal := None;
                kw_isreal := Some (isReal f); kw_simplify := Some false |}))
    end
  end.

(** *** sum *)

Definition sum (f : trigtech) : outcome (list C) :=
  row <- getrow (coeffs f) (Z.to_nat ((n f + 2) / 2 - 1)) ;;
  Ok (imap (fun j z => let z2 := Cmul (CofZ 2) z in
                       if mask_at (isReal f) j then CofF (Creal z2) else z2) row).

(** *** happy *)

(** Lines 316-325: the summed-reverse representation of the magnitudes
    [a = np.abs(self.coeffs[::-1, :])]. *)
Definition kron_ones (r : list F) : fmatrix :=
  [map (fun x => Fmul x F1) r; map (fun x => Fmul x F1) r].

Definition fold_coeffs (a : fmatrix) : outcome fmatrix :=
  let len := length a in
  folded <-
    (if Nat.even len then
       top <- getrow a (len - 1) ;;
       last <- getrow a (len / 2 - 1) ;;
       Ok ([top]
           ++ fmat_add (slice_down a (len - 2) (len / 2 - 1)) (take (len / 2 - 1) a)
           ++ [last])
     else
       last <- getrow a ((len + 1) / 2 - 1) ;;
       Ok (fmat_add (slice_down a (len - 1) ((len + 1) / 2 - 1))
                    (take ((len + 1) / 2 - 1) a)
           ++ [last]))%nat ;;
  let flipped := rev folded in
  row0 <- getrow flipped 0 ;;
  Ok (row0 :: flat_map kron_ones (drop 1 flipped)).

(** The loop over the columns, lines 334-347.  [ishappy] and [cutoff]
    start as arrays of False and 0; the loop stops at the first unhappy
    column.  [arg k] is the array handed to the chopping rule for
    column [k]. *)
Definition halve (cutoff : Z) : Z :=
  if cutoff mod 2 =? 0 then cutoff / 2 else (cutoff - 1) / 2.

Fixpoint happy_loop (len : Z) (tol : F) (args : list (list C))
    : list bool * list Z :=
  match args with
  | [] => ([], [])
  | col :: rest =>
      let cutoff := standardChopCmplx col tol in
      let h := cutoff <? len in
      if h then
        let '(hs, cs) := happy_loop len tol rest in
        (h :: hs, halve cutoff :: cs)
      else (h :: map (fun _ => false) rest, halve cutoff :: map (fun _ => 0) rest)
  end.

(** [np.max] of an integer array; empty arrays have no maximum. *)
Definition np_max_Z (xs : list Z) : outcome Z :=
  match xs with
  | [] => Raise ValueError
  | x :: rest => Ok (fold_left Z.max rest x)
  end.

Definition happy (self : trigtech) : outcome (trigtech * (bool * Z)) :=
  let a := map (map Cabs) (rev (coeffs self)) in
  let len := nrows a in
  _ <- fold_coeffs a ;;
  let tol := Fmul (eps self) F1 in
  let '(hs, cs) := happy_loop len tol (columns (coeffs self)) in
  let h := forallb id hs in
  cmax <- np_max_Z cs ;;
  Ok (set_ishappy self h, (h, 2 * cmax + 1)).

(** *** prolong (the method) *)

Definition store_coeffs (self : trigtech) (c : matrix) : trigtech :=
  let self := set_coeffs self c in
  set_values self (force_real (isReal self) (coeffs2vals c)).

Definition prolong (self : trigtech) (Nout : Z) : outcome trigtech :=
  let Nin := n self in
  if Nout =? Nin then Ok self
  else
    let c := coeffs self in
    sym <- (if Nin mod 2 =? 0 then
              r0 <- getrow c 0 ;;
              let h := map (Cmul (CofF Fhalf)) r0 in
              Ok ([h] ++ drop 1 c ++ [h], Nin + 1)
            else Ok (c, Nin)) ;;
    let '(c, Nin) := sym in
    let cols := Z.to_nat (ncols c) in
    if Nin =? Nout then Ok (store_coeffs self c)
    else if Nin <? Nout then
      let kup := Z.to_nat ((Nout - Nin + 1) / 2) in
      let kdown := Z.to_nat ((Nout - Nin) / 2) in
      Ok (store_coeffs self
            (repeat (zero_row cols) kup ++ c ++ repeat (zero_row cols) kdown))
    else
      let kup := Z.to_nat ((Nin - Nout) / 2) in
      let kdown := Z.to_nat ((Nin - Nout + 1) / 2) in
      let c := drop kup (take (length c - kdown) c) in
      c <- (if (kup <? kdown)%nat then
              r0 <- getrow c 0 ;;
              setrow c 0 (map (Cmul (CofZ 2)) r0)
            else Ok c) ;;
      Ok (store_coeffs self c).

(** *** simplify *)

Definition simplify (self : trigtech) : trigtech :=
  if negb (ishappy self) then self
  else
    let '(v, c) := simplify_coeffs (coeffs self) (isReal self) (eps self) in
    set_coeffs (set_values self v) c.

(** *** populate *)

(** A refinement strategy is called on the representation and returns
    new samples and the flag [giveUp]. *)
Definition refiner : Type := trigtech -> matrix * bool.

(** [np.max(x)] over every entry of a float array. *)
Definition np_max_all (a : fmatrix) : outcome F :=
  match concat a with
  | [] => Raise ValueError
  | x :: rest => Ok (fold_left (fun acc y => if Fltb acc y then y else acc) rest x)
  end.

Definition isfinite (z : C) : bool := negb (Cisnan z || Cisinf z).

(** Python's [max(a, b)] *)
Definition py_max (a b0 : F) : F := if Fltb a b0 then b0 else a.

(** One pass of the body of [while True], lines 375-393, after the
    call of [refine] did not give up. *)
Definition populate_round (self : trigtech) : outcome (trigtech * (bool * Z)) :=
  let valuesTemp := map (map (fun z => if isfinite z then z else C0)) (values self) in
  mx <- np_max_all (map (map (fun z => Fhypot (Creal z) (Cimag z))) valuesTemp) ;;
  let self := set_vscale self (py_max (vscale self) mx) in
  let self := set_coeffs self (vals2coeffs (values self)) in
  happy self.

(** The loop.  [local] is the local variable [ishappy], unbound until
    the first happiness check.  [None] means the fuel ran out. *)
Fixpoint populate_loop (fuel : nat) (refine : refiner) (self : trigtech)
    (local : option bool) : option (outcome (trigtech * option bool)) :=
  match fuel with
  | O => None
  | S fuel =>
      let '(vals, giveUp) := refine self in
      let self := set_values self vals in
      if giveUp then Some (Ok (self, local))
      else
        match populate_round self with
        | Raise e => Some (Raise e)
        | Ok (self, (h, cutoff)) =>
            if h then
              match prolong self cutoff with
              | Raise e => Some (Raise e)
              | Ok self => Some (Ok (self, Some h))
              end
            else populate_loop fuel refine self (Some h)
        end
  end.

(** Lines 395-399. *)
Definition populate_finish (r : trigtech * option bool) : outcome trigtech :=
  let '(self, local) := r in
  match local with
  | None => Raise UnboundLocalError
  | Some h =>
      let self := set_ishappy self h in
      Ok (set_values self (force_real (isReal self) (values self)))
  end.

Definition populate (fuel : nat) (refine : refiner) (self : trigtech)
    : option (outcome trigtech) :=
  match populate_loop fuel refine self None with
  | None => None
  | Some r => Some (x <- r ;; populate_finish x)
  end.

(** *** Construction from an operand *)

(** [__check_callable] *)
Definition check_callable (self : trigtech) (callable : F -> list C)
    : outcome trigtech :=
  let rndVal := callable Fprobe in
  if existsb Cisnan rndVal || existsb Cisinf rndVal
  then Raise (AssertionError "Cannot handle functions that evaluate to Inf or NaN")
  else Ok (set_isReal self (map (fun z => negb (Fnonzero (Cimag z))) rndVal)).

(** The operand [op] of the constructor: an array of samples, a
    refinement object (an instance of [RefineBase]) or a callable.  A
    list of callables is first wrapped by [FunctionContainer], of the
    package [cheb], and is not modelled. *)
Inductive operand : Type :=
| OpArray (a : matrix)
| OpRefine (r : refiner)
| OpCallable (callable : F -> list C).

(** [Refine(op=op, strategy=...)] of the sibling module [refine]. *)
Variable Refine : (F -> list C) -> string -> refiner.

(** Lines 73-78, after [populate]. *)
Definition after_populate (self : trigtech) : trigtech :=
  let vscl := np_maximum (vscale self) (get_vscale self) in
  let self := set_isReal self (get_isreal self vscl) in
  simplify self.

(** [trigtech(op, **kwargs)] *)
Definition init_op (fuel : nat) (op : operand) (kw : tkwargs)
    (resample : option string) : option (outcome trigtech) :=
  let self := init_fields kw in
  match op with
  | OpArray a =>
      let self := set_values self a in
      let self := set_coeffs self (vals2coeffs a) in
      let self := set_ishappy self true in
      let vscl := np_maximum (vscale self) (get_vscale self) in
      let self := set_isReal self (get_isreal self vscl) in
      Some (Ok (set_values self (force_real (isReal self) (values self))))
  | OpRefine r =>
      match populate fuel r self with
      | None => None
      | Some res => Some (self <- res ;; Ok (after_populate self))
      end
  | OpCallable callable =>
      match check_callable self callable with
      | Raise e => Some (Raise e)
      | Ok self =>
          match populate fuel (Refine callable (default "nested"%string resample)) self with
          | None => None
          | Some res => Some (self <- res ;; Ok (after_populate self))
          end
      end
  end.

(** *** inner *)

Definition transpose_mat (a : matrix) : matrix := columns a.

(** [a * w] for a float vector [w] broadcast along the last axis. *)
Definition times_weights (a : matrix) (w : list F) : outcome matrix :=
  if forallb (fun r => length r =? length w)%nat a
  then Ok (map (fun r => zip_with (fun z x => Cmul z (CofF x)) r w) a)
  else Raise ValueError.

Definition dot (xs ys : list C) : C := fold_left Cadd (zip_with Cmul xs ys) C0.

(** [np.matmul(a, b)] *)
Definition matmul (a b0 : matrix) : outcome matrix :=
  if forallb (fun r => length r =? length b0)%nat a
  then Ok (map (fun r => map (dot r) (columns b0)) a)
  else Raise ValueError.

(** [x * y] for two boolean masks, with broadcasting. *)
Definition mask_and (x y : list bool) : outcome (list bool) :=
  if decide (length x = length y) then Ok (zip_with andb x y)
  else match x, y with
       | [bx], _ => Ok (map (andb bx) y)
       | _, [by_] => Ok (map (fun bx => andb bx by_) x)
       | _, _ => Raise ValueError
       end.

Definition inner (trig1 trig2 : trigtech) : outcome matrix :=
  let len := n trig1 + n trig2 in
  let fvalues := snd (prolong_ext (coeffs trig1) len (isReal trig1)) in
  let gvalues := snd (prolong_ext (coeffs trig2) len (isReal trig2)) in
  let w := quadwts len in
  fw <- times_weights (transpose_mat fvalues) w ;;
  out <- matmul fw (map (map Cconj) gvalues) ;;
  both <- mask_and (isReal trig1) (isReal trig2) ;;
  Ok (if forallb id both then map (map (fun z => CofF (Creal z))) out else out).

(** *** prolong_coeffs *)

Definition prolong_coeffs (cfs : matrix) (Nout : Z) : outcome matrix :=
  let Nin := nrows cfs in
  sym <- (if Nin mod 2 =? 0 then
            r0 <- getrow cfs 0 ;;
            let h := map (Cmul (CofF Fhalf)) r0 in
            Ok ([h] ++ drop 1 cfs ++ [h], Nin + 1)
          else Ok (cfs, Nin)) ;;
  let '(c, Nin) := sym in
  let cols := Z.to_nat (ncols c) in
  if Nin =? Nout then Ok cfs
  else if Nin <? Nout then
    let kup := Z.to_nat ((Nout - Nin + 1) / 2) in
    let kdown := Z.to_nat ((Nout - Nin) / 2) in
    Ok (repeat (zero_row cols) kup ++ c ++ repeat (zero_row cols) kdown)
  else
    let kup := Z.to_nat ((Nin - Nout) / 2) in
    let kdown := Z.to_nat ((Nin - Nout + 1) / 2) in
    let c := drop kup (take (length c - kdown) c) in
    if (kup <? kdown)%nat then
      r0 <- getrow c 0 ;;
      setrow c 0 (map (Cmul (CofZ 2)) r0)
    else Ok c.

End Arrays.
End Trig.

(** ** Exact rational arithmetic

    The instance on which inputs are evaluated: a float is a rational
    kept in lowest terms, a complex number is a pair of them, and no
    operation rounds. *)
Module Exact.

Definition qadd (x y : Q) : Q := Qred (x + y).
Definition qsub (x y : Q) : Q := Qred (x - y).
Definition qmul (x y : Q) : Q := Qred (x * y).
Definition qdiv (x y : Q) : Q := Qred (x / y).
Definition qneg (x : Q) : Q := Qred (- x).
Definition qle (x y : Q) : bool := Qle_bool x y.
Definition qlt (x y : Q) : bool := negb (Qle_bool y x).
Definition qabs (x : Q) : Q := if Qle_bool 0 x then Qred x else qneg x.
Definition qnonzero (x : Q) : bool := negb (Qeq_bool x 0).

(** The square root, exact on the squares of rationals and rounded down
    to a multiple of 2^-60 / den otherwise. *)
Definition qsqrt (x : Q) : Q :=
  Qred (Z.sqrt (Qnum x * Zpos (Qden x) * 4 ^ 60) # (Qden x * 2 ^ 60)).

Definition cx : Type := Q * Q.
Definition cadd (z w : cx) : cx := (qadd (fst z) (fst w), qadd (snd z) (snd w)).
Definition cneg (z : cx) : cx := (qneg (fst z), qneg (snd z)).
Definition cconj (z : cx) : cx := (Qred (fst z), qneg (snd z)).
Definition cmul (z w : cx) : cx :=
  (qsub (qmul (fst z) (fst w)) (qmul (snd z) (snd w)),
   qadd (qmul (fst z) (snd w)) (qmul (snd z) (fst w))).
(** Division by zero gives 0 here, where numpy gives inf or nan; the one
    such quotient of [cumsum] is overwritten before it is used. *)
Definition cdiv (z w : cx) : cx :=
  let d := qadd (qmul (fst w) (fst w)) (qmul (snd w) (snd w)) in
  (qdiv (qadd (qmul (fst z) (fst w)) (qmul (snd z) (snd w))) d,
   qdiv (qsub (qmul (snd z) (fst w)) (qmul (fst z) (snd w))) d).
Definition cone : cx := (1%Q, 0%Q).
Definition cpow (z : cx) (k : Z) : cx :=
  match k with
  | Z0 => cone
  | Zpos p => Pos.iter (cmul z) cone p
  | Zneg p => cdiv cone (Pos.iter (cmul z) cone p)
  end.
Definition cabs (z : cx) : Q :=
  qsqrt (qadd (qmul (fst z) (fst z)) (qmul (snd z) (snd z))).

#[export] Instance numeric : Numeric := {|
  F := Q;
  C := cx;
  F0 := 0%Q;
  F1 := 1%Q;
  F2 := 2%Q;
  F3 := 3%Q;
  F10 := 10%Q;
  Fhalf := (1 # 2)%Q;
  F1em10 := (1 # 10000000000)%Q;
  Fpi := (884279719003555 # 281474976710656)%Q;
  Fprobe := (-24602073321313 # 100000000000000)%Q;
  Fmul := qmul;
  Fadd := qadd;
  Fltb := qlt;
  Fleb := qle;
  Fabs := qabs;
  Fhypot := fun x y => qsqrt (qadd (qmul x x) (qmul y y));
  Fnonzero := qnonzero;
  C0 := (0%Q, 0%Q);
  Ci := (0%Q, 1%Q);
  Cadd := cadd;
  Cmul := cmul;
  Cdiv := cdiv;
  Cneg := cneg;
  Cconj := cconj;
  Cpow := cpow;
  Creal := fun z => Qred (fst z);
  Cimag := fun z => Qred (snd z);
  Cabs := cabs;
  CofF := fun x => (Qred x, 0%Q);
  CofZ := fun k => (inject_Z k, 0%Q);
  Cisnan := fun _ => false;
  Cisinf := fun _ => false
|}.

(** Modelled from the spec: [vals2coeffs] and [coeffs2vals] of the
    module [transform], which is not part of the sources at hand.  They
    are the transform pair between the coefficients of the modes
    [waveNumber len] and the samples on the grid x_j = -1 + 2 j / len.
    The factor exp(i pi k x_j) is (-1)^k i^(4 k j / len), a Gaussian
    rational exactly when len is 1, 2 or 4; other lengths are outside
    this instance and get no samples. *)
Definition grid_factor (len k j : Z) : cx :=
  cmul (cpow (-1, 0)%Q k) (cpow (0, 1)%Q (4 / len * (k * j))).

Definition on_grid (len : Z) : bool := (0 <? len) && (4 mod len =? 0).

Definition csum (zs : list cx) : cx := fold_left cadd zs (0, 0)%Q.

Definition coeffs2vals (c : Trig.matrix) : Trig.matrix :=
  let len := Trig.nrows c in
  if on_grid len then
    map (fun j =>
           map (fun col =>
                  csum (zip_with (fun z k => cmul z (grid_factor len k j))
                                 col (Trig.waveNumber len)))
               (Trig.columns c))
        (Trig.arange 0 (Z.to_nat len))
  else [].

Definition vals2coeffs (v : Trig.matrix) : Trig.matrix :=
  let len := Trig.nrows v in
  if on_grid len then
    map (fun k =>
           map (fun col =>
                  cdiv (csum (zip_with (fun z j => cmul z (cconj (grid_factor len k j)))
                                       col (Trig.arange 0 (Z.to_nat len))))
                       (inject_Z len, 0%Q))
               (Trig.columns v))
        (Trig.waveNumber len)
  else [].

(** Modelled from the spec: [standardChopCmplx] of [cheb.detail], which
    is not part of the sources at hand; the spec gives its contract only
    (the index at which the tail below the tolerance can be discarded).
    This stand-in keeps everything up to the last coefficient whose
    magnitude exceeds the tolerance, and at least one coefficient. *)
Fixpoint kept (col : list cx) (tol : Q) : nat :=
  match col with
  | [] => 0
  | z :: rest =>
      let k := kept rest tol in
      if (k =? 0)%nat && qle (cabs z) tol then 0%nat else S k
  end.
Definition chop (col : list cx) (tol : Q) : Z :=
  Z.max 1 (Z.of_nat (kept col tol)).

(** Modelled from the spec: [quadwts] of [trigpts], not part of the
    sources at hand: the weights of the periodic trapezoid rule on a
    period of length 2. *)
Definition quadwts (len : Z) : list Q :=
  repeat (qdiv 2 (inject_Z len)) (Z.to_nat len).

(** Modelled from the spec: [prolong] and [simplify_coeffs] of
    [trig_simplify], not part of the sources at hand.  [prolong] resizes
    the coefficients the way [prolong_coeffs] does and samples them;
    [simplify_coeffs] is the simplification that discards nothing. *)
Definition prolong_values (c : Trig.matrix) (len : Z) (isReal : list bool)
    : Trig.matrix * Trig.matrix :=
  match Trig.prolong_coeffs c len with
  | Ok c' => (c', Trig.force_real isReal (coeffs2vals c'))
  | Raise _ => ([], [])
  end.

#[export] Instance trigext : Trig.TrigExt := {|
  Trig.vals2coeffs := vals2coeffs;
  Trig.coeffs2vals := coeffs2vals;
  Trig.standardChopCmplx := chop;
  Trig.simplify_coeffs := fun c isReal _ => (Trig.force_real isReal (coeffs2vals c), c);
  Trig.prolong_ext := prolong_values;
  Trig.quadwts := quadwts
|}.

(** Modelled from the spec: the strategy [Refine] of the module
    [refine], which is not part of the sources at hand.  Nested growth:
    the first call samples the callable at one point, every later call
    doubles the number of samples on the grid x_j = -1 + 2 j / len, and
    a call whose length would exceed the cap gives up and returns the
    samples it was handed.  The cap is a parameter so that a run can be
    kept on the grids this instance transforms exactly. *)
Definition grid (len : Z) : list Q :=
  map (fun j => qadd (-1) (qdiv (inject_Z (2 * j)) (inject_Z len)))
      (Trig.arange 0 (Z.to_nat len)).

Definition nested_refine (cap : Z) (callable : Q -> list cx) (strategy : string)
    : Trig.refiner :=
  fun self =>
    let len := Trig.nrows (Trig.values self) in
    let len' := if len =? 0 then 1 else 2 * len in
    if cap <? len' then (Trig.values self, true)
    else (map callable (grid len'), false).

(** A callable with a spike at the left end of the period: all its
    Fourier coefficients on a grid have the same size. *)
Definition spike (x : Q) : list cx :=
  [if Qeq_bool x (-1) then (1, 0)%Q else (0, 0)%Q].

(** Modelled from the spec: the collaborators of the deflated residual
    (sparse matrices, function objects and their norm, the collocation
    object, [Functional]), none of which is part of the sources at hand.
    Vectors and sampled functions are lists, a matrix is the list of its
    rows, the operator is linear (its residual at u is M u - rhs), the
    norm is a discrete H1 norm and a functional is the inner product
    with a fixed function. *)
Definition qdot (xs ys : list Q) : Q := fold_left qadd (zip_with qmul xs ys) 0%Q.
Definition qmat_vec (a : list (list Q)) (v : list Q) : list Q :=
  map (fun row => qdot row v) a.
Definition qtranspose (a : list (list Q)) : list (list Q) :=
  match a with
  | [] => []
  | r :: _ => map (fun k => map (fun row => nth k row 0%Q) a) (seq 0 (length r))
  end.
Definition differences (f : list Q) : list Q := zip_with qsub (drop 1 f) f.
Definition discrete_h1norm (f : list Q) : Q :=
  qsqrt (qadd (qdot f f) (qdot (differences f) (differences f))).
Definition resample (f : list Q) (len : Z) : list Q :=
  take (Z.to_nat len) (f ++ repeat 0%Q (Z.to_nat len - length f)).

Record linear_problem : Type := {
  lp_M : list (list Q);
  lp_P : list (list Q);
  lp_S : list (list Q);
  lp_rhs : list Q
}.

#[export] Instance linalg : LinAlg := {|
  Scal := Q;
  s_one := 1%Q;
  s_two := 2%Q;
  s_add := qadd;
  s_mul := qmul;
  s_div := qdiv;
  s_neg := qneg;
  s_pow := fun x y => Qred (Qpower x (Qnum y / Zpos (Qden y)));
  Vec := list Q;
  v_add := zip_with qadd;
  v_scal := fun a => map (qmul a);
  v_sub := zip_with qsub;
  v_div := fun v a => map (fun x => qdiv x a) v;
  Mat := list (list Q);
  mul_vector := qmat_vec;
  mat_dot := qmat_vec;
  transpose := qtranspose;
  mat_shape0 := fun a => Z.of_nat (length a);
  Fun := list Q;
  f_sub := zip_with qsub;
  f_add := zip_with qadd;
  f_scal := fun a => map (qmul a);
  f_div := fun f a => map (fun x => qdiv x a) f;
  zeros_like := map (fun _ => 0%Q);
  f_shape0 := fun f => Z.of_nat (length f);
  f_size := fun f => Z.of_nat (length f);
  f_prolong := resample;
  h1norm := discrete_h1norm;
  Operator := linear_problem;
  Colloc := linear_problem;
  discretize := fun op _ _ => op;
  n_disc := fun op => Z.of_nat (length (lp_M op));
  colloc_matrix := fun c => (lp_M c, lp_P c, lp_S c);
  colloc_P := lp_P;
  colloc_rhs0 := lp_rhs;
  colloc_rhs := fun c u =>
    zip_with qsub (qmat_vec (lp_M c) (match u with StateWrapper f | RawState f => f end))
             (lp_rhs c);
  colloc_name := fun _ => "trig"%string;
  Functional := fun fn _ _ c => qdot fn c
|}.

(** A three-by-three problem, a state and a known solution; the norm
    of their difference is 4. *)
Definition problem : linear_problem :=
  {| lp_M := [[2; 1; 0]; [0; 3; 0]; [0; 0; 1]]%Q;
     lp_P := [[1; 0; 0]; [0; 1; 0]; [0; 0; 1]]%Q;
     lp_S := [[1; 0; 0]; [0; 1; 0]; [0; 0; 1]]%Q;
     lp_rhs := [1; 1; 1]%Q |}.
Definition u0 : list Q := [3; 2; 1]%Q.
Definition known0 : list Q := [0; 0; 0]%Q.
Definition deflated_kw : Newton.kwargs :=
  {| Newton.kw_ks := Some [known0]; Newton.kw_shift := None; Newton.kw_power := None |}.
Definition plain_kw : Newton.kwargs :=
  {| Newton.kw_ks := None; Newton.kw_shift := None; Newton.kw_power := None |}.

End Exact.

(** * Properties *)

(** ** The deflated residual operator *)
Module NewtonFacts.
Import Newton.
Section Facts.
Context `{LA : LinAlg}.

Definition with_ks (ks : option (list Fun)) (sh pw : option Scal) : kwargs :=
  {| kw_ks := ks; kw_shift := sh; kw_power := pw |}.

(** The constructor never fails, whichever way the state is packaged:
    the fallback of the try/except handles the raw state. *)
Lemma init_total (u : state Fun) (operator : Operator) (par : bool) (kw : kwargs) :
  exists u' A, __init__ u operator par kw = Ok (u', A).
Proof.
  unfold __init__.
  destruct (colloc_matrix (discretize operator u par)) as [[m p] s].
  set (u1 := if negb (f_size (payload u) =? mat_shape0 m) then _ else _).
  destruct u1 as [f|f]; simpl;
    match goal with
    | |- context [__compute_der_deflation ?a ?k ?s ?w ?f] =>
        destruct (__compute_der_deflation a k s w f) as [e fn]
    end; eauto.
Qed.

(** What the constructor stores. *)
Lemma init_fields_of (u u' : state Fun) operator par kw A :
  __init__ u operator par kw = Ok (u', A) ->
  known_solutions A = default [] (kw_ks kw) /\
  shift A = default s_one (kw_shift kw) /\
  power A = default s_two (kw_power kw) /\
  colloc A = discretize operator u par /\
  MT A = None /\
  (eta A, functional A) =
    __compute_der_deflation (colloc A) (known_solutions A) (shift A) (power A)
                            (payload u') /\
  b A = (if truthy_list (known_solutions A)
         then v_scal (eta A) (colloc_rhs0 (colloc A))
         else colloc_rhs0 (colloc A)).
Proof.
  unfold __init__.
  destruct (colloc_matrix (discretize operator u par)) as [[m p] s].
  set (u1 := if negb (f_size (payload u) =? mat_shape0 m) then _ else _).
  destruct u1 as [f|f]; simpl;
    match goal with
    | |- context [__compute_der_deflation ?a ?k ?s ?w ?f] =>
        destruct (__compute_der_deflation a k s w f) as [e fn] eqn:E
    end; intros [= <- <-]; simpl; rewrite E; repeat split; reflexivity.
Qed.

(** With known solutions the derivative of the deflation factor is a
    functional, without it is [None]. *)
Lemma der_deflation_functional col known sh pw f :
  match known with
  | [] => __compute_der_deflation col known sh pw f = (s_one, None)
  | _ :: _ => exists e fn, __compute_der_deflation col known sh pw f = (e, Some fn)
  end.
Proof.
  destruct known as [|k ks]; [reflexivity|].
  unfold __compute_der_deflation. simpl truthy_list. cbn [negb].
  destruct (fold_left _ _ _) as [e fn]. eauto.
Qed.

(** C1. For every coefficient vector [c], the action of a constructed
    operator is [M c] when there is no known solution, and
    [eta (M c) + b functional(c)] otherwise, where the known solutions,
    the shift and the power are the keyword arguments of the constructor
    (or their defaults), [eta] and [functional] are the pair computed by
    the constructor at the linearisation point and [b] is the right-hand
    side it stored (rescaled by [eta] once). *)
Theorem matvec_rank_one_update (u : state Fun) (operator : Operator)
    (par : bool) (kw : kwargs) (c : Vec) :
  exists u' A,
    __init__ u operator par kw = Ok (u', A) /\
    known_solutions A = default [] (kw_ks kw) /\
    shift A = default s_one (kw_shift kw) /\
    power A = default s_two (kw_power kw) /\
    (eta A, functional A) =
      __compute_der_deflation (colloc A) (known_solutions A) (shift A) (power A)
                              (payload u') /\
    match known_solutions A with
    | [] => _matvec A c = Ok (mul_vector (M A) c)
    | _ :: _ =>
        exists fn, functional A = Some fn /\
          b A = v_scal (eta A) (colloc_rhs0 (colloc A)) /\
          _matvec A c =
            Ok (v_add (v_scal (eta A) (mul_vector (M A) c)) (v_scal (fn c) (b A)))
    end.
Proof.
  destruct (init_total u operator par kw) as (u' & A & HA).
  exists u', A. split; [exact HA|].
  destruct (init_fields_of _ _ _ _ _ _ HA) as (Hk & Hsh & Hpw & _ & _ & Hder & Hb).
  split; [exact Hk|]. split; [exact Hsh|]. split; [exact Hpw|].
  split; [exact Hder|].
  clear Hk Hsh Hpw. unfold _matvec.
  pose proof (der_deflation_functional (colloc A) (known_solutions A)
                (shift A) (power A) (payload u')) as Hf.
  destruct (known_solutions A) as [|k ks]; [reflexivity|].
  destruct Hf as (e & fn & Hf). rewrite Hf in Hder.
  injection Hder as He Hfn.
  exists fn. rewrite Hfn. simpl. auto.
Qed.

(** C10. With a known solution, [rhs] reads [u.u] without any fallback:
    an operator built from a raw state (which the constructor accepts)
    raises AttributeError when [rhs] is handed a raw state, and scales
    the residual by the deflation factor at [u.u] when it is handed a
    wrapper.  Without known solutions [rhs] returns the plain residual
    for either kind of state, so it never reads [u.u]. *)
Theorem rhs_reads_u_attribute (operator : Operator) (par : bool)
    (f g : Fun) (k : Fun) (ks : list Fun) (sh pw : option Scal) :
  (exists u' A,
     __init__ (RawState f) operator par (with_ks (Some (k :: ks)) sh pw) = Ok (u', A) /\
     rhs A (RawState g) = Raise AttributeError /\
     rhs A (StateWrapper g) =
       Ok (v_scal (__deflation (k :: ks) (shift A) (power A) g)
                  (colloc_rhs (colloc A) (StateWrapper g)))) /\
  (forall none, none = None \/ none = Some [] ->
   exists u' A,
     __init__ (RawState f) operator par (with_ks none sh pw) = Ok (u', A) /\
     rhs A (RawState g) = Ok (colloc_rhs (colloc A) (RawState g)) /\
     rhs A (StateWrapper g) = Ok (colloc_rhs (colloc A) (StateWrapper g))).
Proof.
  split.
  - destruct (init_total (RawState f) operator par (with_ks (Some (k :: ks)) sh pw))
      as (u' & A & HA).
    exists u', A. split; [exact HA|].
    destruct (init_fields_of _ _ _ _ _ _ HA) as (Hk & _).
    unfold rhs. rewrite Hk. simpl. auto.
  - intros none Hnone.
    destruct (init_total (RawState f) operator par (with_ks none sh pw))
      as (u' & A & HA).
    exists u', A. split; [exact HA|].
    destruct (init_fields_of _ _ _ _ _ _ HA) as (Hk & _).
    unfold rhs. rewrite Hk. destruct Hnone as [-> | ->]; simpl; auto.
Qed.

(** The transpose a call of the adjoint works with: the cached one, or
    a fresh transpose of the matrix. *)
Definition adjoint_matrix (cache : option Mat) (a : Mat) : Mat :=
  match cache with None => transpose a | Some t => t end.

(** C8, as the code has it. The adjoint of both operators computes the
    transpose on first use and caches it, also when it then fails.
    Without known solutions it returns the product of the transpose
    with [x]; with known solutions it fails with the AssertionError of
    [assert False] (message FIXME), never with a number.  A second call
    finds the cache and leaves it as it is. *)
Theorem rmatvec_adjoint (A : DeflatedResidual) (Pc : DeflatedResidualPrecond)
    (x y : Vec) :
  let mt := adjoint_matrix (MT A) (M A) in
  let pt := adjoint_matrix (PfT Pc) (Pf Pc) in
  (_rmatvec A x).1 = set_MT A (Some mt) /\
  (_rmatvec A x).2 =
    (if truthy_list (known_solutions A)
     then match functional A with
          | Some _ => Raise (AssertionError "FIXME!")
          | None => Raise TypeError
          end
     else Ok (mul_vector mt x)) /\
  (_rmatvec (_rmatvec A x).1 y).1 = (_rmatvec A x).1 /\
  (precond_rmatvec Pc x).1 = set_PfT Pc (Some pt) /\
  (precond_rmatvec Pc x).2 =
    (if pks Pc =? 0 then Ok (mat_dot pt x) else Raise (AssertionError "FIXME")) /\
  (precond_rmatvec (precond_rmatvec Pc x).1 y).1 = (precond_rmatvec Pc x).1.
Proof.
  unfold _rmatvec, precond_rmatvec, adjoint_matrix. simpl.
  repeat split.
  - destruct (known_solutions A); simpl; [reflexivity|].
    destruct (functional A); reflexivity.
Qed.

(** An operator built with known solutions has a functional, so its
    adjoint fails with the AssertionError. *)
Lemma rmatvec_deflated_fails (u u' : state Fun) operator par kw A (x : Vec) :
  __init__ u operator par kw = Ok (u', A) ->
  truthy_list (known_solutions A) = true ->
  (_rmatvec A x).2 = Raise (AssertionError "FIXME!").
Proof.
  intros HA Hk.
  destruct (init_fields_of _ _ _ _ _ _ HA) as (_ & _ & _ & _ & _ & Hder & _).
  pose proof (der_deflation_functional (colloc A) (known_solutions A)
                (shift A) (power A) (payload u')) as Hf.
  unfold _rmatvec. simpl.
  rewrite Hk. destruct (known_solutions A); [discriminate|].
  destruct Hf as (e & fn & Hf). rewrite Hf in Hder. injection Hder as _ ->.
  reflexivity.
Qed.

End Facts.
End NewtonFacts.

(** *** The operator of the three-by-three problem *)
Module NewtonExamples.
Import Newton Exact.

(** C8, the claim as stated fails: the adjoint of the deflated operator
    built from [problem], and of its preconditioner, fail with
    AssertionError, which is not NotImplementedError. *)
Lemma rmatvec_not_NotImplementedError :
  let adjoint :=
    r <- __init__ (RawState u0) problem false deflated_kw ;;
    (_rmatvec r.2 [1; 1; 1]%Q).2 in
  let padjoint :=
    r <- __init__ (RawState u0) problem false deflated_kw ;;
    (precond_rmatvec (precond r.2) [1; 1; 1]%Q).2 in
  adjoint = Raise (AssertionError "FIXME!") /\
  adjoint <> Raise NotImplementedError /\
  padjoint = Raise (AssertionError "FIXME") /\
  padjoint <> Raise NotImplementedError.
Proof.
  vm_compute. repeat split; discriminate.
Qed.

(** The undeflated adjoint of the same problem. *)
Example rmatvec_plain :
  (r <- __init__ (RawState u0) problem false plain_kw ;;
   (_rmatvec r.2 [1; 1; 1]%Q).2) = Ok [2; 4; 1]%Q.
Proof. vm_compute. reflexivity. Qed.

(** The action on [1; 1; 1]: eta = 17/16, M c = [3; 3; 1],
    b = 17/16 [1; 1; 1] and functional(c) = -3/64. *)
Example matvec_deflated :
  (r <- __init__ (RawState u0) problem false deflated_kw ;;
   _matvec r.2 [1; 1; 1]%Q) = Ok [3213 # 1024; 3213 # 1024; 1037 # 1024]%Q.
Proof. vm_compute. reflexivity. Qed.

Example rhs_raw_state :
  (r <- __init__ (RawState u0) problem false deflated_kw ;; rhs r.2 (RawState u0))
  = Raise AttributeError.
Proof. vm_compute. reflexivity. Qed.

End NewtonExamples.

(** ** The trigonometric representation *)
Module TrigFacts.
Import Trig.
Section Facts.
Context `{NU : Numeric} `{TE : !TrigExt}.
Variable Refine : (F -> list C) -> string -> refiner.

(** *** Arrays *)

Lemma zip_with_map_seq {A B D} (h : A -> B -> D) (g : nat -> B) (c : list A) (s : nat) :
  zip_with h c (map g (seq s (length c))) = imap (fun i row => h row (g (s + i)%nat)) c.
Proof.
  revert s g. induction c as [|row c IH]; intros s g; [reflexivity|].
  simpl. rewrite Nat.add_0_r. f_equal.
  rewrite IH. apply imap_ext. intros i x _. simpl. f_equal. f_equal. lia.
Qed.

Lemma length_arange lo count : length (arange lo count) = count.
Proof. unfold arange. now rewrite length_map, length_seq. Qed.

Lemma length_waveNumber len : length (waveNumber len) = Z.to_nat len.
Proof. unfold waveNumber. destruct (Z.odd len); apply length_arange. Qed.

Lemma nrows_to_nat {A} (a : list (list A)) : Z.to_nat (nrows a) = length a.
Proof. unfold nrows. lia. Qed.

(** Row [i] of a product with a column vector built over [arange]. *)
Lemma mul_rows_arange (c : matrix) (g : Z -> C) (lo : Z) :
  mul_rows c (map g (arange lo (length c)))
  = Ok (imap (fun i row => row_times row (g (lo + Z.of_nat i))) c).
Proof.
  unfold mul_rows.
  rewrite decide_True by (now rewrite length_map, length_arange).
  f_equal. unfold arange. rewrite map_map.
  apply (zip_with_map_seq row_times (fun i => g (lo + Z.of_nat i)) c 0).
Qed.

(** *** The constructor from explicit coefficients *)

Lemma init_arrays_ishappy vals cfs kw : ishappy (init_arrays vals cfs kw) = true.
Proof. reflexivity. Qed.

Lemma init_arrays_coeffs (c : matrix) kw :
  coeffs (init_arrays None (Some c) kw)
  = if size c =? 0 then vals2coeffs (coeffs2vals c) else c.
Proof.
  unfold init_arrays. cbn -[size get_isreal get_vscale].
  change (size (@nil (list C)) =? 0) with true. cbv iota.
  cbn -[size get_isreal get_vscale].
  destruct (size c =? 0) eqn:E; reflexivity.
Qed.

(** *** diff *)

(** The wavenumber of row [i] of a representation of length [len]. *)
Definition wavenumber_at (len : Z) (i : nat) : Z :=
  Z.of_nat i - (if Z.odd len then (len - 1) / 2 else len / 2).

(** The factor (i pi k)^order. *)
Definition diff_factor (k : Z) (order : Z) : C :=
  Cpow (Cmul (Cmul Ci (CofF Fpi)) (CofZ k)) order.

Lemma wavenumber_range (len : Z) (i : nat) :
  (Z.of_nat i < len) ->
  if Z.odd len
  then - ((len - 1) / 2) <= wavenumber_at len i <= (len - 1) / 2
  else - (len / 2) <= wavenumber_at len i <= len / 2 - 1.
Proof.
  intros Hi. unfold wavenumber_at.
  destruct (Z.odd len) eqn:E.
  - apply Z.odd_spec in E. destruct E as [q ->].
    replace (2 * q + 1 - 1) with (q * 2) by lia. rewrite Z.div_mul by lia. lia.
  - assert (Z.even len = true) as E' by (rewrite <- Z.negb_odd, E; reflexivity).
    apply Z.even_spec in E'. destruct E' as [q ->].
    replace (2 * q) with (q * 2) by lia. rewrite Z.div_mul by lia. lia.
Qed.

(** C6, as the code has it. For every representation [f] and every
    order, [diff] multiplies the coefficient in row [i] by
    (i pi k)^order with [k] the wavenumber of that row, which runs over
    -(n-1)/2 .. (n-1)/2 for odd n and -n/2 .. n/2-1 for even n, and it
    returns a new representation that is marked happy: the constructor
    from explicit coefficients sets the flag whatever [f] carries.  (An
    array without entries is passed through the transform pair by that
    constructor.) *)
Theorem diff_scales_by_wavenumber (f : trigtech) (order : Z) :
  exists r,
    diff f order 0 = Ok r /\
    ishappy r = true /\
    (let c' := imap (fun i row =>
                       map (fun z => Cmul z (diff_factor (wavenumber_at (n f) i) order)) row)
                    (coeffs f) in
     coeffs r = if size c' =? 0 then vals2coeffs (coeffs2vals c') else c') /\
    (forall i, (i < length (coeffs f))%nat ->
       if Z.odd (n f)
       then - ((n f - 1) / 2) <= wavenumber_at (n f) i <= (n f - 1) / 2
       else - (n f / 2) <= wavenumber_at (n f) i <= n f / 2 - 1).
Proof.
  unfold diff. simpl negb. cbv iota.
  assert (Hw : forall order,
    map (fun k => Cpow (Cmul (Cmul Ci (CofF Fpi)) (CofZ k)) order) (waveNumber (n f))
    = map (fun k => diff_factor k order)
          (arange (- (if Z.odd (n f) then (n f - 1) / 2 else n f / 2))
                  (length (coeffs f)))).
  { intros o. unfold waveNumber, n. rewrite nrows_to_nat.
    destruct (Z.odd (nrows (coeffs f))); reflexivity. }
  rewrite Hw, mul_rows_arange. simpl obind.
  eexists. split; [reflexivity|].
  split; [apply init_arrays_ishappy|].
  split.
  - rewrite init_arrays_coeffs.
    assert (Heq : imap (fun i row => row_times row
                    (diff_factor (- (if Z.odd (n f) then (n f - 1) / 2 else n f / 2)
                                  + Z.of_nat i) order)) (coeffs f)
                  = imap (fun i row => map (fun z =>
                      Cmul z (diff_factor (wavenumber_at (n f) i) order)) row) (coeffs f)).
    { apply imap_ext. intros i row _. unfold row_times, wavenumber_at.
      replace (- (if Z.odd (n f) then (n f - 1) / 2 else n f / 2) + Z.of_nat i)
        with (Z.of_nat i - (if Z.odd (n f) then (n f - 1) / 2 else n f / 2)) by lia.
      reflexivity. }
    rewrite Heq. reflexivity.
  - intros i Hi. apply wavenumber_range. unfold n, nrows. lia.
Qed.

(** *** cumsum *)

(** The row that the zero-mean test reads is the one after the constant
    mode. *)
Lemma cumsum_ind_after_const (f : trigtech) :
  0 <= n f -> cumsum_ind (n f) = const_index f + 1.
Proof.
  intros Hn. unfold cumsum_ind, const_index.
  destruct (n f mod 2 =? 0); simpl; lia.
Qed.

Lemma setrow_ok {A} (a : list (list A)) (i : nat) (r : list A) a' :
  setrow a i r = Ok a' -> (i < length a)%nat /\ a' = <[i := r]> a.
Proof.
  unfold setrow. destruct (decide (i < length a)%nat); [|discriminate].
  intros [= <-]. auto.
Qed.

Lemma getrow_ok {A} (a : list (list A)) (i : nat) (r : list A) :
  getrow a i = Ok r -> a !! i = Some r.
Proof. unfold getrow. destruct (a !! i); [intros [= ->]; reflexivity | discriminate]. Qed.

(** When the test passes, the tested row exists. *)
Lemma cumsum_check_ok (f : trigtech) :
  cumsum_check f = Ok tt ->
  (Z.to_nat (cumsum_ind (n f)) < length (coeffs f))%nat.
Proof.
  unfold cumsum_check. destruct (getrow _ _) as [row|e] eqn:E; [|discriminate].
  intros _. apply getrow_ok in E. eapply lookup_lt_Some, E.
Qed.

(** The zero-mean test looks at the row after the constant mode: any
    non-zero entry there makes [cumsum] raise (for a threshold below 1),
    whatever the constant row holds, and the argument is left alone. *)
Lemma cumsum_raises_on_next_row (f : trigtech) (order : Z) (row : list C) :
  coeffs f !! Z.to_nat (const_index f + 1) = Some row ->
  bool_gt (np_any (map Cabs row)) (Fmul (Fmul F10 (vscale f)) (eps f)) = true ->
  cumsum f order =
    (f, Raise (RuntimeError
      "Indefinite integrals are only possible for trigtech objects with zero mean!")).
Proof.
  intros Hrow Hgt. unfold cumsum, cumsum_check.
  rewrite cumsum_ind_after_const by (unfold n, nrows; lia).
  unfold getrow. unfold matrix in *. rewrite Hrow. simpl. rewrite Hgt. reflexivity.
Qed.

(** The row index that [cumsum] zeroes in place. *)
Definition zeroed_index (len : Z) : nat :=
  Z.to_nat (if len mod 2 =? 0 then len / 2 else (len + 1) / 2).

Lemma zeroed_index_bounds (len : Z) (k : nat) :
  len = Z.of_nat k ->
  (Z.to_nat (cumsum_ind len) < k)%nat ->
  (zeroed_index len < k)%nat /\ (len mod 2 = 0 -> (0 < zeroed_index len)%nat).
Proof.
  intros -> H. unfold cumsum_ind, zeroed_index in *.
  destruct (Z.of_nat k mod 2 =? 0) eqn:E.
  - apply Z.eqb_eq in E. split; [|intros _]; Z.div_mod_to_equations; lia.
  - apply Z.eqb_neq in E. split; [|intros E'; contradiction].
    Z.div_mod_to_equations; lia.
Qed.

(** What a call that returns has stored in its argument: the row at
    index n//2 (even n) or (n+1)//2 (odd n) holds zeros, for even n the
    first row is halved as well, every other row and every other
    attribute (the samples included) is as before. *)
Lemma cumsum_stored_array (f : trigtech) (order : Z) :
  is_ok (cumsum f order).2 = true ->
  let f' := (cumsum f order).1 in
  let idx := zeroed_index (n f) in
  let cols := Z.to_nat (m f) in
  (idx < length (coeffs f))%nat /\
  coeffs f' !! idx = Some (zero_row cols) /\
  (if n f mod 2 =? 0
   then exists row0, coeffs f !! 0%nat = Some row0 /\
          coeffs f' !! 0%nat = Some (map (Cmul (CofF Fhalf)) row0) /\
          coeffs f' = <[0%nat := map (Cmul (CofF Fhalf)) row0]>
                        (<[idx := zero_row cols]> (coeffs f))
   else coeffs f' = <[idx := zero_row cols]> (coeffs f)) /\
  (forall i, i <> idx -> (n f mod 2 = 0 -> i <> 0%nat) ->
             coeffs f' !! i = coeffs f !! i) /\
  f' = set_coeffs f (coeffs f').
Proof.
  unfold cumsum.
  destruct (cumsum_check f) as [[]|e] eqn:Hc; [|discriminate].
  pose proof (cumsum_check_ok f Hc) as Hlt.
  destruct (zeroed_index_bounds (n f) (length (coeffs f)) eq_refl Hlt) as [Hidx Hpos].
  destruct (cumsum_inplace (coeffs f) (n f)) as [[[stored c] hd]|e] eqn:Hi;
    [|discriminate].
  intros _. simpl. fold (m f). unfold matrix in *.
  split; [exact Hidx|].
  revert Hi. unfold cumsum_inplace. fold (m f). unfold zeroed_index in *.
  destruct (n f mod 2 =? 0) eqn:E.
  - apply Z.eqb_eq in E. specialize (Hpos E).
    destruct (setrow (coeffs f) _ _) as [c1|] eqn:H1; [|discriminate]. simpl.
    apply setrow_ok in H1 as [_ ->].
    destruct (getrow _ 0%nat) as [r0|] eqn:H2; [|discriminate]. simpl.
    apply getrow_ok in H2. rewrite list_lookup_insert_ne in H2 by lia.
    destruct (setrow _ 0%nat _) as [c2|] eqn:H3; [|discriminate]. simpl.
    apply setrow_ok in H3 as [H0 ->].
    destruct (getrow _ 0%nat) as [r0'|] eqn:H4; [|discriminate]. simpl.
    intros [= <- _ _].
    repeat split.
    + rewrite list_lookup_insert_ne by lia.
      apply list_lookup_insert_eq. exact Hidx.
    + exists r0. split; [exact H2|]. split; [|reflexivity].
      apply list_lookup_insert_eq. exact H0.
    + intros i Hne Hz. rewrite !list_lookup_insert_ne by (auto; lia). reflexivity.
  - destruct (setrow (coeffs f) _ _) as [c1|] eqn:H1; [|discriminate]. simpl.
    apply setrow_ok in H1 as [_ ->]. intros [= <- _ _].
    repeat split.
    + apply list_lookup_insert_eq. exact Hidx.
    + intros i Hne _. rewrite list_lookup_insert_ne by auto. reflexivity.
Qed.


(** A call that raises leaves its argument as it was. *)
Lemma cumsum_raise_keeps_input (f : trigtech) (order : Z) e :
  cumsum_check f = Raise e -> cumsum f order = (f, Raise e).
Proof. unfold cumsum. intros ->. reflexivity. Qed.

(** *** happy *)

(** The check as the spec words it: the chopping rule is applied to the
    columns of the summed-reverse representation.  Kept next to [happy]
    for comparison; [happy] computes the same representation and then
    hands the stored coefficients to the rule. *)
Definition happy_as_specified (self : trigtech) : outcome (trigtech * (bool * Z)) :=
  let a := map (map Cabs) (rev (coeffs self)) in
  let len := nrows a in
  folded <- fold_coeffs a ;;
  let tol := Fmul (eps self) F1 in
  let '(hs, cs) := happy_loop len tol (columns (map (map CofF) folded)) in
  let h := forallb id hs in
  cmax <- np_max_Z cs ;;
  Ok (set_ishappy self h, (h, 2 * cmax + 1)).

(** A column the loop reaches is judged happy exactly when its cutoff
    is below the length. *)
Lemma happy_loop_flag (len : Z) (tol : F) (args : list (list C)) (k : nat) col :
  args !! k = Some col ->
  (forall j c, (j < k)%nat -> args !! j = Some c -> standardChopCmplx c tol < len) ->
  (happy_loop len tol args).1 !! k = Some (standardChopCmplx col tol <? len).
Proof.
  revert k. induction args as [|c0 rest IH]; intros k Hk Hprev; [discriminate|].
  destruct k as [|k]; simpl in *.
  - injection Hk as ->.
    destruct (standardChopCmplx col tol <? len) eqn:E; [|reflexivity].
    destruct (happy_loop len tol rest). reflexivity.
  - assert (H0 : standardChopCmplx c0 tol < len) by (apply (Hprev 0%nat); [lia|reflexivity]).
    apply Z.ltb_lt in H0. rewrite H0.
    specialize (IH k Hk).
    destruct (happy_loop len tol rest) as [hs cs]. simpl in *.
    apply IH. intros j c Hj Hc. apply (Hprev (S j)); [lia|exact Hc].
Qed.

(** The verdict of [happy] is the conjunction of the flags of the
    stored columns, and the rule never sees the folded array. *)
Lemma happy_verdict (self self' : trigtech) (h : bool) (cutoff : Z) :
  happy self = Ok (self', (h, cutoff)) ->
  h = forallb id (happy_loop (n self) (Fmul (eps self) F1) (columns (coeffs self))).1 /\
  self' = set_ishappy self h.
Proof.
  unfold happy. destruct (fold_coeffs _) as [folded|]; [|discriminate]. simpl.
  replace (nrows (map (map Cabs) (rev (coeffs self)))) with (n self)
    by (unfold n, nrows; now rewrite length_map, length_rev).
  destruct (happy_loop _ _ _) as [hs cs]. simpl.
  destruct (np_max_Z cs); [|discriminate]. simpl.
  intros [= <- <- _]. auto.
Qed.

(** *** populate *)

(** The refinement gives up at its call number [k + 1], after [k] rounds
    in which it returned samples and the happiness check failed. *)
Fixpoint gives_up_after (k : nat) (refine : refiner) (self : trigtech) : bool :=
  let '(vals, giveUp) := refine self in
  let self := set_values self vals in
  match k with
  | O => giveUp
  | S k =>
      negb giveUp &&
      match populate_round self with
      | Ok (self', (false, _)) => gives_up_after k refine self'
      | _ => false
      end
  end.

Lemma populate_loop_gives_up (k : nat) (refine : refiner) :
  forall (self : trigtech) (local : option bool) (fuel : nat),
    gives_up_after k refine self = true ->
    (k < fuel)%nat ->
    exists self',
      populate_loop fuel refine self local
      = Some (Ok (self', match k with O => local | S _ => Some false end)).
Proof.
  induction k as [|k IH]; intros self local fuel Hg Hf;
    (destruct fuel as [|fuel]; [lia|]); simpl in *;
    destruct (refine self) as [vals giveUp].
  - subst giveUp. eauto.
  - apply andb_true_iff in Hg as [Hno Hround].
    apply negb_true_iff in Hno. subst giveUp.
    destruct (populate_round (set_values self vals)) as [[self1 [[|] cutoff]]|];
      try discriminate.
    destruct (IH self1 (Some false) fuel Hround ltac:(lia)) as [self' ->].
    exists self'. destruct k; reflexivity.
Qed.

Lemma after_populate_unhappy (self : trigtech) :
  ishappy self = false -> ishappy (after_populate self) = false.
Proof.
  intros H. unfold after_populate, simplify. simpl. rewrite H. simpl. exact H.
Qed.

(** C5. When the refinement of a callable gives up after at least one
    round, none of which reached happiness, the constructor returns
    (with enough fuel for the rounds it ran) a representation whose
    flag [ishappy] is false; no exception is raised. *)
Theorem unresolved_is_flagged (callable : F -> list C) (kw : tkwargs)
    (resample : option string) (k fuel : nat) :
  (self0 <- check_callable (init_fields kw) callable ;;
   Ok (gives_up_after (S k) (Refine callable (default "nested"%string resample)) self0))
    = Ok true ->
  (S k < fuel)%nat ->
  exists t,
    init_op Refine fuel (OpCallable callable) kw resample = Some (Ok t) /\
    ishappy t = false.
Proof.
  intros Hg Hf. unfold init_op.
  destruct (check_callable (init_fields kw) callable) as [s0|]; [|discriminate].
  simpl in Hg. injection Hg as Hg.
  unfold populate.
  destruct (populate_loop_gives_up (S k) _ s0 None fuel Hg Hf) as [self' ->].
  simpl. eexists. split; [reflexivity|].
  apply after_populate_unhappy. reflexivity.
Qed.

(** The same for an operand that is a refinement object already. *)
Lemma unresolved_is_flagged_refine (r : refiner) (kw : tkwargs)
    (resample : option string) (k fuel : nat) :
  gives_up_after (S k) r (init_fields kw) = true ->
  (S k < fuel)%nat ->
  exists t,
    init_op Refine fuel (OpRefine r) kw resample = Some (Ok t) /\
    ishappy t = false.
Proof.
  intros Hg Hf. unfold init_op, populate.
  destruct (populate_loop_gives_up (S k) _ (init_fields kw) None fuel Hg Hf) as [self' ->].
  simpl. eexists. split; [reflexivity|].
  apply after_populate_unhappy. reflexivity.
Qed.

(** A refinement that gives up on its very first call leaves the local
    variable [ishappy] of [populate] unbound. *)
Lemma give_up_at_once (r : refiner) (self : trigtech) (fuel : nat) :
  gives_up_after 0 r self = true ->
  populate (S fuel) r self = Some (Raise UnboundLocalError).
Proof.
  unfold populate. simpl. destruct (r self) as [vals giveUp].
  intros ->. reflexivity.
Qed.

(** *** inner *)

(** The sum over the grid of w f conj(g) for one column of samples of
    each operand, accumulated in grid order. *)
Definition weighted_sum (w : list F) (fcol gcol : list C) : C :=
  fold_left Cadd
    (zip_with Cmul (zip_with (fun z x => Cmul z (CofF x)) fcol w) (map Cconj gcol))
    C0.

(** Every row is as long as the first one. *)
Definition rectangular {A} (a : list (list A)) : Prop :=
  Forall (fun r => Z.of_nat (length r) = ncols a) a.

Lemma length_column (a : matrix) (k : nat) : length (column a k) = length a.
Proof. unfold column. apply length_map. Qed.

Lemma ncols_map {A B} (g : A -> B) (a : list (list A)) :
  ncols (map (map g) a) = ncols a.
Proof. destruct a; simpl; [reflexivity|]. now rewrite length_map. Qed.

Lemma columns_conj (gv : matrix) :
  rectangular gv ->
  columns (map (map Cconj) gv) = map (map Cconj) (columns gv).
Proof.
  intros Hrect. unfold columns. rewrite ncols_map, map_map.
  apply map_ext_in. intros k Hk. apply in_seq in Hk.
  unfold column. rewrite !map_map.
  apply map_ext_in. intros r Hr.
  unfold rectangular in Hrect. rewrite Forall_forall in Hrect.
  assert (Hlen : (k < length r)%nat).
  { specialize (Hrect r (proj2 (list_elem_of_In _ _) Hr)). lia. }
  rewrite (nth_indep _ C0 (Cconj C0)) by (now rewrite length_map).
  apply map_nth.
Qed.

Lemma forallb_map_true {A} (p : A -> bool) (l : list A) :
  (forall x, In x l -> p x = true) -> forallb p l = true.
Proof. intros H. apply forallb_forall. exact H. Qed.

(** The product of two masks is all true exactly when both are. *)
Lemma mask_and_all (x y both : list bool) :
  mask_and x y = Ok both -> x <> [] -> y <> [] ->
  forallb id both = forallb id x && forallb id y.
Proof.
  unfold mask_and. intros H Hx Hy.
  destruct (decide (length x = length y)) as [Hl|Hl].
  - injection H as <-. clear Hx Hy. revert y Hl.
    induction x as [|a x IH]; intros [|c y] Hl; try discriminate; [reflexivity|].
    simpl in *. rewrite (IH y) by lia.
    destruct a, c; simpl; try reflexivity.
    + now rewrite andb_false_r.
  - assert (Hb : forall (c : bool) l, l <> [] ->
              forallb id (map (andb c) l) = c && forallb id l).
    { intros c l Hne. destruct c; simpl.
      - f_equal. rewrite <- (map_id l) at 2. apply map_ext. intros []; reflexivity.
      - destruct l; [contradiction|]. reflexivity. }
    destruct x as [|bx [|bx' x]]; [contradiction| |].
    + injection H as <-. rewrite Hb by exact Hy. simpl. now rewrite andb_true_r.
    + destruct y as [|c [|c' y]]; [contradiction| |discriminate].
      injection H as <-.
      change (bx && c :: bx' && c :: map (fun b0 => b0 && c) x)
        with (map (fun b0 => b0 && c) (bx :: bx' :: x)).
      replace (map (fun b0 => b0 && c) (bx :: bx' :: x))
        with (map (andb c) (bx :: bx' :: x))
        by (apply map_ext; intros b0; apply andb_comm).
      rewrite Hb by discriminate.
      change (forallb id [c]) with (c && true).
      rewrite andb_true_r. apply andb_comm.
Qed.

(** The inner product as the claim words it, with the conjugate on the
    samples of the first operand; kept next to [inner] for comparison. *)
Definition inner_conj_first (trig1 trig2 : trigtech) : outcome matrix :=
  let len := n trig1 + n trig2 in
  let fvalues := (prolong_ext (coeffs trig1) len (isReal trig1)).2 in
  let gvalues := (prolong_ext (coeffs trig2) len (isReal trig2)).2 in
  let w := quadwts len in
  fw <- times_weights (transpose_mat (map (map Cconj) fvalues)) w ;;
  out <- matmul fw gvalues ;;
  both <- mask_and (isReal trig1) (isReal trig2) ;;
  Ok (if forallb id both then map (map (fun z => CofF (Creal z))) out else out).


End Facts.
End TrigFacts.

(** *** Representations of length four

    The modes of a representation of length four are -2, -1, 0, 1, so
    the constant mode is row 2 ([const_index]) and row 3 is the mode
    exp(i pi x). *)
Module TrigExamples.
Import Trig Exact.

Definition of_coeffs (c : matrix) : trigtech := init_arrays None (Some c) no_kwargs.

(** The constant 1, exp(i pi x), exp(-i pi x) and 1 + sin(pi x). *)
Definition f_one : trigtech := of_coeffs [[(0, 0)]; [(0, 0)]; [(1, 0)]; [(0, 0)]]%Q.
Definition f_exp_plus : trigtech := of_coeffs [[(0, 0)]; [(0, 0)]; [(0, 0)]; [(1, 0)]]%Q.
Definition f_exp_minus : trigtech := of_coeffs [[(0, 0)]; [(1, 0)]; [(0, 0)]; [(0, 0)]]%Q.
Definition f_one_plus_sin : trigtech :=
  of_coeffs [[(0, 0)]; [(0, 1 # 2)]; [(1, 0)]; [(0, -1 # 2)]]%Q.

Example f_one_samples : values f_one = [[(1, 0)]; [(1, 0)]; [(1, 0)]; [(1, 0)]]%Q.
Proof. vm_compute. reflexivity. Qed.

Example f_one_plus_sin_samples :
  values f_one_plus_sin = [[(1, 0)]; [(0, 0)]; [(1, 0)]; [(2, 0)]]%Q.
Proof. vm_compute. reflexivity. Qed.

(** C2, the code at two inputs. The constant function 1 has mean 1 in
    its constant row, and [cumsum] returns a representation (the zero
    function); exp(i pi x) has mean zero, and [cumsum] raises the
    RuntimeError of the zero-mean test.  The test reads row
    [const_index + 1]. *)
Theorem cumsum_mean_test_reads_next_row :
  const_index f_one = 2 /\
  coeffs f_one !! 2%nat = Some [(1, 0)%Q] /\
  (r <- (cumsum f_one 1).2 ;; Ok (coeffs r))
    = Ok [[(0, 0)]; [(0, 0)]; [(0, 0)]; [(0, 0)]]%Q /\
  const_index f_exp_plus = 2 /\
  coeffs f_exp_plus !! 2%nat = Some [(0, 0)%Q] /\
  raised (cumsum f_exp_plus 1).2
    = Some (RuntimeError
        "Indefinite integrals are only possible for trigtech objects with zero mean!").
Proof. vm_compute. repeat split; reflexivity. Qed.

(** The example of the spec, 1 + sin(pi x), does raise: its row 3 holds
    the coefficient -i/2 of exp(i pi x). *)
Example cumsum_one_plus_sin :
  is_ok (cumsum f_one_plus_sin 1).2 = false.
Proof. vm_compute. reflexivity. Qed.

(** C3, the code at exp(-i pi x), whose mean is zero. The derivative of
    its antiderivative has the coefficient -1 in row 3, the mode
    exp(i pi x), where the function has 0: [cumsum] writes the constant
    of integration into row [highestDegree + 1], the row after the
    constant mode. *)
Theorem diff_cumsum_changes_mode_one :
  coeffs f_exp_minus = [[(0, 0)]; [(1, 0)]; [(0, 0)]; [(0, 0)]]%Q /\
  const_index f_exp_minus = 2 /\
  (r <- (cumsum f_exp_minus 1).2 ;; Ok (coeffs r))
    = Ok [[(0, 0)]; [(0, 281474976710656 # 884279719003555)]; [(0, 0)];
          [(0, 281474976710656 # 884279719003555)]]%Q /\
  (r <- (cumsum f_exp_minus 1).2 ;; d <- diff r 1 0 ;; Ok (coeffs d))
    = Ok [[(0, 0)]; [(1, 0)]; [(0, 0)]; [(-1, 0)]]%Q.
Proof. vm_compute. repeat split; reflexivity. Qed.

(** C6, the claim as stated fails: the derivative of a representation
    that is not happy is marked happy. *)
Lemma diff_result_marked_happy :
  ishappy (set_ishappy f_exp_minus false) = false /\
  (d <- diff (set_ishappy f_exp_minus false) 1 0 ;; Ok (ishappy d)) = Ok true.
Proof. vm_compute. split; reflexivity. Qed.

(** Three rows whose row after the constant mode is zero. *)
Definition f_odd : trigtech := of_coeffs [[(1, 0)]; [(2, 0)]; [(0, 0)]]%Q.



(** C4, the code at exp(i pi x). Its magnitudes fold to 0, 1, 1, 0, 0
    in the summed-reverse order, on which the chopping rule returns 3,
    below the length 4; the stored column 0, 0, 0, 1 makes the rule
    return 4.  [happy] hands the stored column to the rule and reports
    the representation unhappy with cutoff 5, where the check as worded
    reports it happy with cutoff 3. *)
Theorem happy_chops_stored_coefficients :
  (a <- fold_coeffs (map (map Cabs) (rev (coeffs f_exp_plus))) ;; Ok a)
    = Ok [[0]; [1]; [1]; [0]; [0]]%Q /\
  chop [(0, 0); (1, 0); (1, 0); (0, 0); (0, 0)]%Q (1 # 10000000000)%Q = 3 /\
  chop (column (coeffs f_exp_plus) 0) (1 # 10000000000)%Q = 4 /\
  (r <- happy f_exp_plus ;; Ok r.2) = Ok (false, 5) /\
  (r <- TrigFacts.happy_as_specified f_exp_plus ;; Ok r.2) = Ok (true, 3).
Proof. vm_compute. repeat split; reflexivity. Qed.

(** C5 at the spike, refined on 1, 2 and 4 points with a cap of 4: three
    unhappy rounds, then the refinement gives up and the constructor
    returns the unhappy representation of length 4. *)
Lemma unresolved_is_flagged_witness :
  exists t,
    init_op (NU := numeric) (nested_refine 4) 5 (OpCallable spike) no_kwargs None
      = Some (Ok t) /\
    ishappy t = false.
Proof.
  apply (TrigFacts.unresolved_is_flagged (NU := numeric) (TE := trigext)
           (nested_refine 4) spike no_kwargs None 2 5).
  - vm_compute. reflexivity.
  - lia.
Defined.

Example unresolved_spike :
  match init_op (NU := numeric) (nested_refine 4) 5 (OpCallable spike) no_kwargs None with
  | Some (Ok t) => Some (ishappy t, coeffs t)
  | _ => None
  end = Some (false, [[(1 # 4, 0)]; [(-1 # 4, 0)]; [(1 # 4, 0)]; [(-1 # 4, 0)]]%Q).
Proof. vm_compute. reflexivity. Qed.

(** Two representations of length one: the constants i and 1. *)
Definition f_i : trigtech := of_coeffs [[(0, 1)]]%Q.
Definition f_1 : trigtech := of_coeffs [[(1, 0)]]%Q.



End TrigExamples.

(** * Further properties of the two files *)

(** ** The deflated residual: the factor, the residual, the preconditioner *)
Module NewtonMore.
Import Newton.
Section Facts.
Context `{LA : LinAlg}.

(** The running product of [__compute_der_deflation] is the product of
    [__deflation]: both multiply the factors of the known solutions in
    list order. *)
Lemma der_fold_eta (sh pw : Scal) (u : Fun) (known : list Fun) :
  forall (e : Scal) (fn : Fun),
    (fold_left (der_step sh pw u) known (e, fn)).1
    = fold_left (fun eta ks => s_mul eta (deflation_factor sh pw u ks)) known e.
Proof.
  induction known as [|k ks IH]; intros e fn; [reflexivity|].
  simpl. apply IH.
Qed.

Lemma der_deflation_eta (col : Colloc) (known : list Fun) (sh pw : Scal) (u : Fun) :
  (__compute_der_deflation col known sh pw u).1 = __deflation known sh pw u.
Proof.
  unfold __compute_der_deflation, __deflation.
  destruct (negb (truthy_list known)); [reflexivity|].
  rewrite <- (der_fold_eta sh pw u known s_one (zeros_like u)).
  destruct (fold_left (der_step sh pw u) known (s_one, zeros_like u)). reflexivity.
Qed.

Lemma init_ok (u : state Fun) (operator : Operator) (par : bool) (kw : kwargs) :
  exists u' A,
    __init__ u operator par kw = Ok (u', A) /\
    known_solutions A = default [] (kw_ks kw) /\
    P A = (colloc_matrix (discretize operator u par)).1.2 /\
    (eta A, functional A) =
      __compute_der_deflation (colloc A) (known_solutions A) (shift A) (power A)
                              (payload u') /\
    (match u with StateWrapper _ => exists f, u' = StateWrapper f
             | RawState _ => exists f, u' = RawState f end).
Proof.
  unfold __init__.
  destruct (colloc_matrix (discretize operator u par)) as [[m p] s].
  set (u1 := if negb (f_size (payload u) =? mat_shape0 m) then _ else _).
  assert (Hu : match u with StateWrapper _ => exists f, u1 = StateWrapper f
                       | RawState _ => exists f, u1 = RawState f end).
  { subst u1. destruct u; destruct (negb _); simpl; eauto. }
  destruct u1 as [f|f]; simpl;
    match goal with
    | |- context [__compute_der_deflation ?a ?k ?s ?w ?f] =>
        destruct (__compute_der_deflation a k s w f) as [e fn] eqn:E
    end; eexists; eexists; (split; [reflexivity|]); simpl; rewrite E; auto.
Qed.

(** X1. The factor [eta] that the constructor stores is the factor that
    [rhs] computes at the same state: for an operator built from a state
    wrapper, [rhs] at the (possibly resampled) linearisation state is
    the plain residual there times the stored [eta], and the plain
    residual itself when there is no known solution. *)
Theorem rhs_at_linearisation_state (f : Fun) (operator : Operator) (par : bool)
    (kw : kwargs) :
  exists u' A,
    __init__ (StateWrapper f) operator par kw = Ok (u', A) /\
    eta A = __deflation (known_solutions A) (shift A) (power A) (payload u') /\
    rhs A u' = Ok (if truthy_list (known_solutions A)
                   then v_scal (eta A) (colloc_rhs (colloc A) u')
                   else colloc_rhs (colloc A) u').
Proof.
  destruct (init_ok (StateWrapper f) operator par kw)
    as (u' & A & HA & _ & _ & Hder & (g & ->)).
  exists (StateWrapper g), A. split; [exact HA|].
  pose proof (der_deflation_eta (colloc A) (known_solutions A) (shift A) (power A) g) as He.
  simpl in Hder. rewrite <- Hder in He. simpl in He.
  split; [exact He|].
  unfold rhs. destruct (known_solutions A) eqn:Hk; simpl; [reflexivity|].
  rewrite He. reflexivity.
Qed.

(** X2. The preconditioner that [precond] builds from a constructed
    operator counts the known solutions, and its action never fails:
    without known solutions it is [Pf.dot(x)], with known solutions it
    is (term1 - b functional(term1) / denom) / eta with
    term1 = Pf.dot(x) and denom = eta^2 + functional(b), where [b] is
    the right-hand side stored by the operator. *)
Theorem precond_of_constructed (u : state Fun) (operator : Operator) (par : bool)
    (kw : kwargs) (x : Vec) :
  exists u' A,
    __init__ u operator par kw = Ok (u', A) /\
    pks (precond A) = Z.of_nat (length (known_solutions A)) /\
    let term1 := mat_dot (P A) x in
    match known_solutions A with
    | [] => precond_matvec (precond A) x = Ok term1
    | _ :: _ =>
        exists fn, functional A = Some fn /\
          denom (precond A) = Some (s_add (s_pow (eta A) s_two) (fn (b A))) /\
          precond_matvec (precond A) x =
            Ok (v_div (v_sub term1
                         (v_scal (s_div (fn term1)
                                        (s_add (s_pow (eta A) s_two) (fn (b A))))
                                 (b A)))
                      (eta A))
    end.
Proof.
  destruct (init_ok u operator par kw) as (u' & A & HA & _ & _ & Hder & _).
  exists u', A. split; [exact HA|]. split; [reflexivity|].
  pose proof (NewtonFacts.der_deflation_functional (colloc A) (known_solutions A)
                (shift A) (power A) (payload u')) as Hf.
  unfold precond_matvec, precond, precond_init. simpl.
  destruct (known_solutions A) as [|k ks]; [reflexivity|].
  destruct Hf as (e & fn & Hf). rewrite Hf in Hder. injection Hder as _ Hfn.
  exists fn. rewrite Hfn. simpl. auto.
Qed.

(** X19. The action of a preconditioner, however it was built, fails in
    one case only: a non-zero count of known solutions without a
    functional, where [None] is called and TypeError is raised.  The
    attribute [denom], which the constructor sets only when there is a
    functional, is therefore never found missing.  With the count 0 the
    functional is not consulted and the action is [Pf.dot(x)]. *)
Theorem precond_matvec_outcome (pf : Mat) (rhs0 : Vec) (ks : option Z)
    (eta0 : option Scal) (fn : option (Vec -> Scal)) (x : Vec) :
  raised (precond_matvec (precond_init pf rhs0 ks eta0 fn) x)
    = (if default 0 ks =? 0 then None
       else match fn with Some _ => None | None => Some TypeError end) /\
  (default 0 ks = 0 ->
   precond_matvec (precond_init pf rhs0 ks eta0 fn) x = Ok (mat_dot pf x)).
Proof.
  unfold precond_matvec, precond_init. simpl. split.
  - destruct (default 0 ks =? 0); [reflexivity|].
    destruct fn; reflexivity.
  - intros ->. reflexivity.
Qed.

End Facts.
End NewtonMore.

(** ** The remaining methods of the representation *)
Module TrigMore.
Import Trig.
Section Methods.
Context `{NU : Numeric} `{TE : !TrigExt}.

(** The property [isreal]: [np.all(self.isReal)]. *)
Definition isreal (f : trigtech) : bool := forallb id (isReal f).

(** [np.zeros_like(a)] *)
Definition zeros_like_array (a : matrix) : matrix := map (map (fun _ => C0)) a.

(** The keyword arguments the functions below pass on: [ishappy] is
    read by the constructor, [simplify] and [isreal] are not. *)
Definition passed_kwargs (f : trigtech) (flags : list bool) : tkwargs :=
  {| kw_eps := None; kw_hscale := None; kw_vscale := None;
     kw_ishappy := Some (ishappy f); kw_isReal := None;
     kw_isreal := Some flags; kw_simplify := Some false |}.

(** [__deepcopy__] (the memo dictionary apart). *)
Definition __deepcopy__ (self : trigtech) : trigtech :=
  init_arrays (Some (values self)) (Some (coeffs self))
    {| kw_eps := Some (eps self); kw_hscale := Some (eps self); kw_vscale := None;
       kw_ishappy := Some (ishappy self); kw_isReal := None;
       kw_isreal := Some (isReal self); kw_simplify := None |}.

(** [a[:, None, idx]]: column [idx] as an array with one column. *)
Definition column_array (a : matrix) (idx : Z) : outcome matrix :=
  if (0 <=? idx) && (idx <? ncols a)
  then Ok (map (fun r => [nth (Z.to_nat idx) r C0]) a)
  else Raise IndexError.

(** [__getitem__] *)
Definition __getitem__ (self : trigtech) (idx : Z) : outcome trigtech :=
  if negb ((0 <=? idx) && (idx <? m self))
  then Raise (AssertionError
         ("Index " +:+ pretty idx +:+ " out of range [0, " +:+ pretty (m self - 1) +:+ "]."))
  else
    c <- column_array (coeffs self) idx ;;
    v <- column_array (values self) idx ;;
    Ok (init_arrays (Some v) (Some c) (passed_kwargs self (isReal self))).

(** [a[i:j]] for integers of either sign: a negative index counts from
    the end, and both ends are clipped to the array. *)
Definition clip_index (len i : Z) : nat :=
  Z.to_nat (if i <? 0 then Z.max (i + len) 0 else Z.min i len).
Definition py_slice {A} (a : list A) (i j : Z) : list A :=
  let len := Z.of_nat (length a) in
  drop (clip_index len i) (take (clip_index len j) a).

(** [truncate] *)
Definition truncate (self : trigtech) (new_size : Z) : matrix :=
  let ci := const_index self in
  let k := new_size / 2 in
  let c := coeffs self in
  py_slice c (ci - k) ci ++ py_slice c ci (ci + k).

(** [real] *)
Definition real (trig : trigtech) : trigtech :=
  if isreal trig then trig
  else
    let fvalues := map (map Creal) (values trig) in
    let nisReal := repeat true (Z.to_nat (m trig)) in
    if forallb (forallb (fun x => Fltb x (eps trig))) fvalues
    then init_arrays (Some (zeros_like_array (values trig)))
                     (Some (zeros_like_array (coeffs trig)))
                     (passed_kwargs trig nisReal)
    else
      let fvalues := map (map CofF) fvalues in
      init_arrays (Some fvalues) (Some (vals2coeffs fvalues))
                  (passed_kwargs trig nisReal).

(** [imag] *)
Definition imag (trig : trigtech) : trigtech :=
  if isreal trig
  then init_arrays (Some (zeros_like_array (values trig)))
                   (Some (zeros_like_array (coeffs trig)))
                   (passed_kwargs trig [true])
  else
    let nvalues := map (map (fun z => CofF (Cimag z))) (values trig) in
    init_arrays (Some nvalues) (Some (vals2coeffs nvalues))
                (passed_kwargs trig (repeat true (Z.to_nat (m trig)))).

(** [conj].  [id] marks the columns that are not flagged real;
    [np.flipud] reverses the rows of the marked columns. *)
Definition conj (trig : trigtech) : trigtech :=
  let id_ := map negb (isReal trig) in
  if forallb id id_ then trig
  else
    let v := map (imap (fun j z => if mask_at id_ j then Cconj z else z)) (values trig) in
    let c := zip_with
               (fun row opposite =>
                  imap (fun j z => if mask_at id_ j
                                   then Cconj (nth j opposite C0) else z) row)
               (coeffs trig) (rev (coeffs trig)) in
    init_arrays (Some v) (Some c) (passed_kwargs trig (isReal trig)).

End Methods.
End TrigMore.

Module TrigMoreFacts.
Import Trig TrigMore.
Section Facts.
Context `{NU : Numeric} `{TE : !TrigExt}.

(** *** prolong *)

Lemma n_store_coeffs (self : trigtech) (c : matrix) : n (store_coeffs self c) = nrows c.
Proof. reflexivity. Qed.

Lemma coeffs_store_coeffs (self : trigtech) (c : matrix) : coeffs (store_coeffs self c) = c.
Proof. reflexivity. Qed.

Ltac lengths :=
  unfold nrows in *;
  repeat (rewrite ?length_app, ?repeat_length, ?length_drop, ?length_take,
                  ?length_insert, ?length_map in *; simpl length in *).

(** The two stages of [prolong]: the symmetrisation of an even-length
    array, and the padding or chopping of the odd-length one. *)
Definition symmetrized (c : matrix) : outcome (matrix * Z) :=
  if nrows c mod 2 =? 0 then
    r0 <- getrow c 0 ;;
    let h := map (Cmul (CofF Fhalf)) r0 in
    Ok ([h] ++ drop 1 c ++ [h], nrows c + 1)
  else Ok (c, nrows c).

Definition resized (c : matrix) (Nin Nout : Z) : outcome matrix :=
  let cols := Z.to_nat (ncols c) in
  if Nin =? Nout then Ok c
  else if Nin <? Nout then
    let kup := Z.to_nat ((Nout - Nin + 1) / 2) in
    let kdown := Z.to_nat ((Nout - Nin) / 2) in
    Ok (repeat (zero_row cols) kup ++ c ++ repeat (zero_row cols) kdown)
  else
    let kup := Z.to_nat ((Nin - Nout) / 2) in
    let kdown := Z.to_nat ((Nin - Nout + 1) / 2) in
    let c := drop kup (take (length c - kdown) c) in
    if (kup <? kdown)%nat then
      r0 <- getrow c 0 ;;
      setrow c 0 (map (Cmul (CofZ 2)) r0)
    else Ok c.

Lemma prolong_stages (self : trigtech) (Nout : Z) :
  prolong self Nout =
    if Nout =? n self then Ok self
    else
      sym <- symmetrized (coeffs self) ;;
      c <- resized sym.1 sym.2 Nout ;;
      Ok (store_coeffs self c).
Proof.
  unfold prolong, symmetrized, resized, n.
  destruct (Nout =? nrows (coeffs self)); [reflexivity|].
  destruct (nrows (coeffs self) mod 2 =? 0).
  - destruct (getrow (coeffs self) 0) as [r0|e]; [|reflexivity].
    cbn [obind fst snd].
    destruct (_ =? Nout); [reflexivity|].
    destruct (_ <? Nout); [reflexivity|].
    destruct (_ <? _)%nat; [|reflexivity].
    destruct (getrow _ 0) as [q|]; [|reflexivity]. cbn [obind].
    destruct (setrow _ _ _); reflexivity.
  - cbn [obind fst snd].
    destruct (_ =? Nout); [reflexivity|].
    destruct (_ <? Nout); [reflexivity|].
    destruct (_ <? _)%nat; [|reflexivity].
    destruct (getrow _ 0) as [q|]; [|reflexivity]. cbn [obind].
    destruct (setrow _ _ _); reflexivity.
Qed.

Lemma symmetrized_length (c : matrix) :
  1 <= nrows c ->
  exists c1 Nin',
    symmetrized c = Ok (c1, Nin') /\ nrows c1 = Nin' /\ Nin' mod 2 = 1 /\
    (Nin' = nrows c \/ Nin' = nrows c + 1).
Proof.
  intros Hn. unfold symmetrized.
  destruct c as [|r0 rest]; [unfold nrows in Hn; simpl in Hn; lia|].
  destruct (nrows (r0 :: rest) mod 2 =? 0) eqn:Ev.
  - apply Z.eqb_eq in Ev. simpl getrow. cbn [obind].
    eexists; eexists; split; [reflexivity|].
    split; [|split; [|right; reflexivity]].
    + simpl drop. lengths. lia.
    + revert Ev. generalize (nrows (r0 :: rest)). intros z Hz.
      Z.div_mod_to_equations. lia.
  - apply Z.eqb_neq in Ev.
    eexists; eexists; split; [reflexivity|].
    split; [reflexivity|]. split; [|left; reflexivity].
    revert Ev. generalize (nrows (r0 :: rest)). intros z Hz.
    Z.div_mod_to_equations. lia.
Qed.

Lemma resized_length (c : matrix) (Nout : Z) :
  1 <= nrows c -> 1 <= Nout ->
  exists c', resized c (nrows c) Nout = Ok c' /\ nrows c' = Nout.
Proof.
  intros Hn Hout. unfold resized.
  destruct (nrows c =? Nout) eqn:E1.
  { apply Z.eqb_eq in E1. eauto. }
  apply Z.eqb_neq in E1.
  destruct (nrows c <? Nout) eqn:E2.
  { apply Z.ltb_lt in E2. eexists; split; [reflexivity|].
    lengths. Z.div_mod_to_equations. lia. }
  apply Z.ltb_ge in E2.
  remember (Z.to_nat ((nrows c - Nout) / 2)) as kup eqn:Dup.
  remember (Z.to_nat ((nrows c - Nout + 1) / 2)) as kdown eqn:Ddown.
  remember (drop kup (take (length c - kdown) c)) as c2 eqn:Dc2.
  assert (Hc2 : Z.of_nat (length c2) = Nout).
  { subst c2 kup kdown. lengths. Z.div_mod_to_equations. lia. }
  destruct (kup <? kdown)%nat.
  - destruct c2 as [|q0 qs]; [simpl in Hc2; lia|].
    unfold getrow, setrow. cbn [lookup list_lookup obind length].
    destruct (decide _) as [Hd|Hd]; [|exfalso; apply Hd; lia].
    eexists; split; [reflexivity|]. lengths. simpl in Hc2. lia.
  - eauto.
Qed.

(** X3. Resizing a non-empty representation to a positive length
    succeeds and stores exactly that many coefficient rows, whether it
    pads, symmetrises or chops. *)
Theorem prolong_length (self : trigtech) (Nout : Z) :
  1 <= n self -> 1 <= Nout ->
  (r <- prolong self Nout ;; Ok (n r)) = Ok Nout.
Proof.
  intros Hn Hout. rewrite prolong_stages.
  destruct (Nout =? n self) eqn:E0.
  { apply Z.eqb_eq in E0. simpl. now rewrite E0. }
  destruct (symmetrized_length (coeffs self) Hn) as (c1 & Nin' & -> & Hlen & _ & Hor).
  cbn [obind fst snd]. subst Nin'.
  destruct (resized_length c1 Nout) as (c' & -> & Hc'); [unfold n in Hn; lia | exact Hout |].
  cbn [obind]. f_equal. exact Hc'.
Qed.

(** The row of the constant mode in an array of [len] rows, as
    [const_index] computes it. *)
Definition const_row (len : Z) : nat :=
  Z.to_nat (if negb (len mod 2 =? 0) then (len + 1) / 2 - 1 else len / 2).

Lemma const_index_row (f : trigtech) : Z.to_nat (const_index f) = const_row (n f).
Proof. reflexivity. Qed.

Lemma symmetrized_const (c c1 : matrix) (L : Z) :
  1 <= nrows c -> symmetrized c = Ok (c1, L) ->
  c1 !! Z.to_nat ((L - 1) / 2) = c !! const_row (nrows c).
Proof.
  intros Hn. unfold symmetrized, const_row.
  destruct c as [|r0 rest]; [unfold nrows in Hn; simpl in Hn; lia|].
  destruct (nrows (r0 :: rest) mod 2 =? 0) eqn:Ev; cbn [negb].
  - apply Z.eqb_eq in Ev. simpl getrow. cbn [obind]. intros [= <- <-].
    simpl drop. unfold nrows in *. simpl length in *.
    replace (Z.of_nat (S (length rest)) + 1 - 1) with (Z.of_nat (S (length rest))) by lia.
    assert (exists q, Z.to_nat (Z.of_nat (S (length rest)) / 2) = S q /\ (q < length rest)%nat)
      as (q & -> & Hq).
    { exists (Z.to_nat (Z.of_nat (S (length rest)) / 2) - 1)%nat.
      Z.div_mod_to_equations. lia. }
    simpl. now rewrite lookup_app_l.
  - apply Z.eqb_neq in Ev. intros [= <- <-]. f_equal.
    revert Ev. generalize (nrows (r0 :: rest)). intros z Hz.
    Z.div_mod_to_equations. lia.
Qed.

Lemma resized_const (c c' : matrix) (Nout : Z) :
  nrows c mod 2 = 1 -> 1 <= Nout ->
  resized c (nrows c) Nout = Ok c' ->
  c' !! const_row Nout = c !! Z.to_nat ((nrows c - 1) / 2).
Proof.
  intros Hodd Hout. unfold resized, const_row. unfold matrix in *.
  destruct (nrows c =? Nout) eqn:E1.
  { apply Z.eqb_eq in E1. intros [= <-]. f_equal.
    rewrite <- E1. replace (nrows c mod 2 =? 0) with false
      by (symmetry; apply Z.eqb_neq; lia).
    cbn [negb]. Z.div_mod_to_equations. lia. }
  apply Z.eqb_neq in E1.
  destruct (nrows c <? Nout) eqn:E2.
  { apply Z.ltb_lt in E2. intros [= <-].
    assert (Hi : (const_row Nout = Z.to_nat ((Nout - nrows c + 1) / 2)
                                 + Z.to_nat ((nrows c - 1) / 2))%nat).
    { unfold const_row. destruct (Nout mod 2 =? 0) eqn:Ev; cbn [negb];
        [apply Z.eqb_eq in Ev | apply Z.eqb_neq in Ev];
        unfold nrows in *; Z.div_mod_to_equations; lia. }
    unfold const_row in Hi. rewrite Hi.
    rewrite lookup_app_r by (rewrite repeat_length; lia).
    rewrite repeat_length.
    replace (_ + _ - _)%nat with (Z.to_nat ((nrows c - 1) / 2)) by lia.
    apply lookup_app_l. unfold nrows in *. Z.div_mod_to_equations. lia. }
  apply Z.ltb_ge in E2.
  remember (Z.to_nat ((nrows c - Nout) / 2)) as kup eqn:Dup.
  remember (Z.to_nat ((nrows c - Nout + 1) / 2)) as kdown eqn:Ddown.
  assert (Hslice : forall j, (Z.of_nat j < Nout) ->
            drop kup (take (length c - kdown) c) !! j = c !! (kup + j)%nat).
  { intros j Hj. rewrite lookup_drop. apply lookup_take_lt.
    subst kup kdown. unfold nrows in *. Z.div_mod_to_equations. lia. }
  destruct (kup <? kdown)%nat eqn:Ek.
  - apply Nat.ltb_lt in Ek.
    destruct (getrow _ 0%nat) as [q0|]; [|discriminate]. cbn [obind].
    intros Hset. apply TrigFacts.setrow_ok in Hset as [_ ->].
    assert (Hev : Nout mod 2 = 0).
    { subst kup kdown. unfold nrows in *. Z.div_mod_to_equations. lia. }
    rewrite (proj2 (Z.eqb_eq _ _) Hev). cbn [negb].
    rewrite list_lookup_insert_ne by (Z.div_mod_to_equations; lia).
    rewrite Hslice by (Z.div_mod_to_equations; lia).
    f_equal. subst kup. unfold nrows in *. Z.div_mod_to_equations. lia.
  - apply Nat.ltb_ge in Ek. intros [= <-].
    assert (Hev : Nout mod 2 = 1).
    { subst kup kdown. unfold nrows in *. Z.div_mod_to_equations. lia. }
    replace (Nout mod 2 =? 0) with false by (symmetry; apply Z.eqb_neq; lia).
    cbn [negb].
    rewrite Hslice by (Z.div_mod_to_equations; lia).
    f_equal. subst kup. unfold nrows in *. Z.div_mod_to_equations. lia.
Qed.

(** X4. Resizing keeps the mean: after [prolong] to any positive
    length, the row at the new [const_index] is the row that was at the
    old [const_index], untouched by the padding, the halving of the
    edge rows or the doubling of the first row. *)
Theorem prolong_keeps_constant_mode (self : trigtech) (Nout : Z) :
  1 <= n self -> 1 <= Nout ->
  (r <- prolong self Nout ;; Ok (coeffs r !! Z.to_nat (const_index r)))
  = Ok (coeffs self !! Z.to_nat (const_index self)).
Proof.
  intros Hn Hout. rewrite prolong_stages.
  destruct (Nout =? n self) eqn:E0; [reflexivity|].
  destruct (symmetrized_length (coeffs self) Hn) as (c1 & Nin' & Hsym & Hlen & Hodd & Hor).
  rewrite Hsym. cbn [obind fst snd]. subst Nin'.
  destruct (resized_length c1 Nout) as (c' & Hres & Hc'); [unfold n in Hn; lia | exact Hout |].
  rewrite Hres. cbn [obind]. f_equal.
  rewrite !const_index_row.
  change (n (store_coeffs self c')) with (nrows c'). rewrite Hc'.
  change (coeffs (store_coeffs self c')) with c'.
  rewrite (resized_const c1 c' Nout Hodd Hout Hres).
  apply (symmetrized_const (coeffs self) c1 (nrows c1) Hn Hsym).
Qed.

Lemma resized_zero (c : matrix) :
  nrows c mod 2 = 1 -> resized c (nrows c) 0 = Raise IndexError.
Proof.
  intros Hodd. unfold resized.
  replace (nrows c =? 0) with false
    by (symmetry; apply Z.eqb_neq; intros E; rewrite E in Hodd; discriminate).
  replace (nrows c <? 0) with false by (symmetry; apply Z.ltb_ge; unfold nrows; lia).
  replace (_ <? _)%nat with true.
  2:{ symmetry. apply Nat.ltb_lt. unfold nrows in *. Z.div_mod_to_equations. lia. }
  replace (drop _ (take _ c)) with (@nil (list C)); [reflexivity|].
  symmetry. apply length_zero_iff_nil. lengths. Z.div_mod_to_equations. lia.
Qed.

(** X5. [prolong] has no empty case: resizing a representation without
    coefficients to any non-zero length, and resizing a non-empty one
    to length zero, both end in IndexError. *)
Theorem prolong_index_errors (self : trigtech) (Nout : Z) :
  (n self = 0 /\ Nout <> 0) \/ (1 <= n self /\ Nout = 0) ->
  raised (prolong self Nout) = Some IndexError.
Proof.
  intros [[Hn Hout] | [Hn ->]].
  - unfold prolong. rewrite Hn.
    replace (Nout =? 0) with false by (symmetry; apply Z.eqb_neq; exact Hout).
    destruct (coeffs self) as [|r0 rest] eqn:Hc; [reflexivity|].
    unfold n in Hn. rewrite Hc in Hn. unfold nrows in Hn. simpl in Hn. lia.
  - rewrite prolong_stages.
    replace (0 =? n self) with false by (symmetry; apply Z.eqb_neq; lia).
    destruct (symmetrized_length (coeffs self) Hn) as (c1 & Nin' & -> & Hlen & Hodd & _).
    cbn [obind fst snd]. subst Nin'. rewrite resized_zero by exact Hodd. reflexivity.
Qed.

(** *** prolong_coeffs *)

Lemma prolong_coeffs_stages (cfs : matrix) (Nout : Z) :
  prolong_coeffs cfs Nout =
    (sym <- symmetrized cfs ;;
     if sym.2 =? Nout then Ok cfs else resized sym.1 sym.2 Nout).
Proof.
  unfold prolong_coeffs, symmetrized, resized.
  destruct (nrows cfs mod 2 =? 0).
  - destruct (getrow cfs 0) as [r0|e]; [|reflexivity].
    cbn [obind fst snd]. destruct (_ =? Nout); reflexivity.
  - cbn [obind fst snd]. destruct (_ =? Nout); reflexivity.
Qed.

(** X6. The copy of the resizing code in [prolong_coeffs] agrees with
    [prolong]: whenever the target differs from the current length and,
    for an even length, from the length plus one, both give the same
    coefficients or the same exception. *)
Theorem prolong_coeffs_agrees (self : trigtech) (Nout : Z) :
  Nout <> n self ->
  (n self mod 2 = 0 -> Nout <> n self + 1) ->
  (r <- prolong self Nout ;; Ok (coeffs r)) = prolong_coeffs (coeffs self) Nout.
Proof.
  intros Hne Hq. rewrite prolong_stages, prolong_coeffs_stages.
  replace (Nout =? n self) with false by (symmetry; apply Z.eqb_neq; exact Hne).
  unfold symmetrized. fold (n self).
  destruct (n self mod 2 =? 0) eqn:Ev.
  - apply Z.eqb_eq in Ev. specialize (Hq Ev).
    destruct (getrow (coeffs self) 0) as [r0|e]; [|reflexivity].
    cbn [obind fst snd].
    replace (n self + 1 =? Nout) with false by (symmetry; apply Z.eqb_neq; lia).
    destruct (resized _ _ _); reflexivity.
  - cbn [obind fst snd].
    replace (n self =? Nout) with false by (symmetry; apply Z.eqb_neq; lia).
    destruct (resized _ _ _); reflexivity.
Qed.

(** X7. The one place where the copy differs: asked to take an
    even-length array to the next (odd) length, [prolong_coeffs] returns
    the array it was given, one row short of the target and without the
    split of the first row, where [prolong] stores the symmetrised
    array of the requested length. *)
Theorem prolong_coeffs_next_odd (self : trigtech) :
  1 <= n self -> n self mod 2 = 0 ->
  prolong_coeffs (coeffs self) (n self + 1) = Ok (coeffs self) /\
  (r <- prolong self (n self + 1) ;; Ok (n r)) = Ok (n self + 1) /\
  (exists r0,
     coeffs self !! 0%nat = Some r0 /\
     (r <- prolong self (n self + 1) ;; Ok (coeffs r))
     = Ok ([map (Cmul (CofF Fhalf)) r0] ++ drop 1 (coeffs self)
           ++ [map (Cmul (CofF Fhalf)) r0])).
Proof.
  intros Hn Hev. split; [|split].
  - rewrite prolong_coeffs_stages. unfold symmetrized, n in *.
    rewrite (proj2 (Z.eqb_eq _ _) Hev).
    destruct (coeffs self) as [|r0 rest].
    { unfold nrows in Hn. simpl in Hn. lia. }
    unfold getrow. cbn [lookup list_lookup obind fst snd].
    now rewrite Z.eqb_refl.
  - rewrite prolong_stages.
    replace (n self + 1 =? n self) with false by (symmetry; apply Z.eqb_neq; lia).
    destruct (symmetrized_length (coeffs self) Hn) as (c1 & Nin' & -> & Hlen & _ & Hor).
    cbn [obind fst snd]. subst Nin'.
    destruct (resized_length c1 (n self + 1)) as (c' & -> & Hc');
      [unfold n in Hn; lia | lia |].
    cbn [obind]. f_equal. exact Hc'.
  - rewrite prolong_stages.
    replace (n self + 1 =? n self) with false by (symmetry; apply Z.eqb_neq; lia).
    unfold symmetrized, resized. fold (n self).
    rewrite (proj2 (Z.eqb_eq _ _) Hev).
    destruct (coeffs self) as [|r0 rest] eqn:Hc.
    { unfold n, nrows in Hn. rewrite Hc in Hn. simpl in Hn. lia. }
    exists r0. split; [reflexivity|].
    unfold getrow. cbn [lookup list_lookup obind fst snd].
    now rewrite Z.eqb_refl.
Qed.

(** *** sum and diff *)

Lemma sum_index (f : trigtech) :
  Z.to_nat ((n f + 2) / 2 - 1) = Z.to_nat (const_index f).
Proof.
  unfold const_index. assert (0 <= n f) by (unfold n, nrows; lia).
  destruct (n f mod 2 =? 0) eqn:E; simpl.
  - apply Z.eqb_eq in E. f_equal. Z.div_mod_to_equations. lia.
  - apply Z.eqb_neq in E. f_equal. Z.div_mod_to_equations. lia.
Qed.

(** X8. [sum] returns twice the coefficients of the row that
    [const_index] names, with the real part taken in the columns flagged
    real: its own index arithmetic, floor((n+2)/2)-1, agrees with
    [const_index] for every length.  A representation without
    coefficients has no such row and [sum] raises IndexError. *)
Theorem sum_reads_const_index (f : trigtech) :
  sum f = match coeffs f !! Z.to_nat (const_index f) with
          | Some row =>
              Ok (imap (fun j z => if mask_at (isReal f) j
                                   then CofF (Creal (Cmul (CofZ 2) z))
                                   else Cmul (CofZ 2) z) row)
          | None => Raise IndexError
          end /\
  (n f = 0 -> raised (sum f) = Some IndexError).
Proof.
  split.
  - unfold sum, getrow. rewrite sum_index.
    destruct (_ !! _); reflexivity.
  - intros H0. unfold sum, getrow.
    destruct (coeffs f) as [|r0 rest] eqn:Hc; [reflexivity|].
    unfold n, nrows in H0. rewrite Hc in H0. simpl in H0. lia.
Qed.

Lemma imap_map {A B D} (g : A -> B) (l : list A) :
  forall h : nat -> B -> D, imap h (map g l) = imap (fun j x => h j (g x)) l.
Proof.
  induction l as [|x l IH]; intros h; [reflexivity|].
  simpl. f_equal. apply IH.
Qed.

Lemma size_first_row {A} (a : list (list A)) : 1 <= ncols a -> size a <> 0.
Proof.
  destruct a as [|r rest]; simpl; [lia|].
  unfold size. simpl. rewrite length_app. lia.
Qed.

Lemma ncols_imap_rows (g : nat -> C -> C) (c : matrix) :
  ncols (imap (fun i row => map (g i) row) c) = ncols c.
Proof. destruct c as [|r rest]; simpl; [reflexivity|]. now rewrite length_map. Qed.

Lemma const_index_wavenumber (len : Z) :
  0 <= len ->
  TrigFacts.wavenumber_at len (const_row len) = 0.
Proof.
  intros Hlen. unfold TrigFacts.wavenumber_at, const_row.
  destruct (Z.odd len) eqn:O.
  - apply Z.odd_spec in O. destruct O as [q ->].
    replace ((2 * q + 1) mod 2 =? 0) with false
      by (symmetry; apply Z.eqb_neq; Z.div_mod_to_equations; lia).
    simpl negb. cbv iota. Z.div_mod_to_equations. lia.
  - assert (Z.even len = true) as O' by (rewrite <- Z.negb_odd, O; reflexivity).
    apply Z.even_spec in O'. destruct O' as [q ->].
    replace ((2 * q) mod 2 =? 0) with true
      by (symmetry; apply Z.eqb_eq; Z.div_mod_to_equations; lia).
    simpl negb. cbv iota. Z.div_mod_to_equations. lia.
Qed.

(** The coefficients [diff] stores. *)
Lemma diff_coeffs (f : trigtech) (order : Z) :
  1 <= m f ->
  exists r,
    diff f order 0 = Ok r /\
    coeffs r = imap (fun i row =>
                       map (fun z => Cmul z (TrigFacts.diff_factor
                                              (TrigFacts.wavenumber_at (n f) i) order)) row)
                    (coeffs f).
Proof.
  intros Hm. unfold diff. simpl negb. cbv iota.
  assert (Hw :
    map (fun k => Cpow (Cmul (Cmul Ci (CofF Fpi)) (CofZ k)) order) (waveNumber (n f))
    = map (fun k => TrigFacts.diff_factor k order)
          (arange (- (if Z.odd (n f) then (n f - 1) / 2 else n f / 2))
                  (length (coeffs f)))).
  { unfold waveNumber, n. rewrite TrigFacts.nrows_to_nat.
    destruct (Z.odd (nrows (coeffs f))); reflexivity. }
  rewrite Hw, TrigFacts.mul_rows_arange. simpl obind.
  eexists. split; [reflexivity|].
  rewrite TrigFacts.init_arrays_coeffs.
  assert (Heq : imap (fun i row => row_times row
                  (TrigFacts.diff_factor
                     (- (if Z.odd (n f) then (n f - 1) / 2 else n f / 2)
                      + Z.of_nat i) order)) (coeffs f)
                = imap (fun i row => map (fun z =>
                    Cmul z (TrigFacts.diff_factor
                              (TrigFacts.wavenumber_at (n f) i) order)) row) (coeffs f)).
  { apply imap_ext. intros i row _. unfold row_times, TrigFacts.wavenumber_at.
    replace (- (if Z.odd (n f) then (n f - 1) / 2 else n f / 2) + Z.of_nat i)
      with (Z.of_nat i - (if Z.odd (n f) then (n f - 1) / 2 else n f / 2)) by lia.
    reflexivity. }
  rewrite Heq.
  replace (size _ =? 0) with false; [reflexivity|].
  symmetry. apply Z.eqb_neq. apply size_first_row.
  rewrite (ncols_imap_rows
             (fun i z => Cmul z (TrigFacts.diff_factor
                                   (TrigFacts.wavenumber_at (n f) i) order))).
  exact Hm.
Qed.

(** X9. The integral of a derivative: for a representation with at
    least one column, [sum] of [diff f] reads the row of the constant
    mode, in which [diff] has multiplied the coefficient of [f] by
    (i pi 0)^order; no other coefficient of [f] enters. *)
Theorem sum_of_diff (f : trigtech) (order : Z) :
  1 <= m f ->
  exists r row,
    diff f order 0 = Ok r /\
    coeffs f !! Z.to_nat (const_index f) = Some row /\
    sum r = Ok (imap (fun j z =>
                  let z2 := Cmul (CofZ 2) (Cmul z (TrigFacts.diff_factor 0 order)) in
                  if mask_at (isReal r) j then CofF (Creal z2) else z2) row).
Proof.
  intros Hm.
  destruct (diff_coeffs f order Hm) as (r & Hr & Hc).
  assert (Hn : 1 <= n f).
  { unfold m, n, nrows in *. destruct (coeffs f); simpl in *; lia. }
  assert (Hlen : n r = n f).
  { unfold n, nrows. rewrite Hc. now rewrite length_imap. }
  assert (Hci : const_index r = const_index f).
  { unfold const_index. now rewrite Hlen. }
  assert (Hlt : (Z.to_nat (const_index f) < length (coeffs f))%nat).
  { unfold const_index, n, nrows in *.
    destruct (negb _); Z.div_mod_to_equations; lia. }
  destruct (lookup_lt_is_Some_2 _ _ Hlt) as [row Hrow].
  exists r, row. split; [exact Hr|]. split; [exact Hrow|].
  unfold sum, getrow. rewrite sum_index, Hci, Hc.
  rewrite list_lookup_imap, Hrow. simpl.
  rewrite const_index_row, const_index_wavenumber by lia.
  rewrite imap_map. reflexivity.
Qed.

(** *** truncate *)

Lemma const_index_bounds (f : trigtech) :
  0 <= const_index f <= n f /\ 2 * const_index f <= n f /\
  n f <= 2 * const_index f + 1.
Proof.
  unfold const_index. assert (0 <= n f) by (unfold n, nrows; lia).
  destruct (n f mod 2 =? 0) eqn:E; simpl.
  - apply Z.eqb_eq in E. Z.div_mod_to_equations. lia.
  - apply Z.eqb_neq in E. Z.div_mod_to_equations. lia.
Qed.

Lemma drop_take_split {A} (c : list A) (a b d : nat) :
  (a <= b)%nat -> (b <= d)%nat -> (b <= length c)%nat ->
  drop a (take b c) ++ drop b (take d c) = drop a (take d c).
Proof.
  intros Hab Hbd Hb.
  rewrite <- (take_drop b (take d c)) at 2.
  rewrite take_take, Nat.min_l by exact Hbd.
  rewrite drop_app_le by (rewrite length_take; lia).
  reflexivity.
Qed.

(** X10. Within the array, [truncate] returns the 2 k rows that start
    k = new_size // 2 rows before the constant mode: the k rows below
    it, the constant mode and the k - 1 rows above it.  The number of
    rows is even, so an odd [new_size] gives one row fewer than asked
    for. *)
Theorem truncate_window (self : trigtech) (new_size : Z) :
  0 <= new_size -> new_size / 2 <= const_index self ->
  truncate self new_size
    = take (Z.to_nat (2 * (new_size / 2)))
           (drop (Z.to_nat (const_index self - new_size / 2)) (coeffs self)) /\
  nrows (truncate self new_size) = 2 * (new_size / 2).
Proof.
  intros Hs Hk.
  destruct (const_index_bounds self) as (Hci & Hlow & Hup).
  assert (Hk0 : 0 <= new_size / 2) by (Z.div_mod_to_equations; lia).
  assert (Heq : truncate self new_size
    = take (Z.to_nat (2 * (new_size / 2)))
           (drop (Z.to_nat (const_index self - new_size / 2)) (coeffs self))).
  { unfold truncate, py_slice, clip_index. fold (nrows (coeffs self)). fold (n self).
    replace (const_index self - new_size / 2 <? 0) with false
      by (symmetry; apply Z.ltb_ge; lia).
    replace (const_index self <? 0) with false by (symmetry; apply Z.ltb_ge; lia).
    replace (const_index self + new_size / 2 <? 0) with false
      by (symmetry; apply Z.ltb_ge; lia).
    rewrite !Z.min_l by lia.
    rewrite drop_take_split; [| lia | lia | unfold n, nrows in *; lia].
    rewrite take_drop_commute. f_equal. f_equal. lia. }
  split; [exact Heq|].
  rewrite Heq. unfold nrows. rewrite length_take, length_drop.
  unfold n, nrows in *. lia.
Qed.

(** X11. Asked for more rows than the constant mode has below it (and
    no more than the array has), [truncate] does not pad: the lower
    slice starts at a negative index, which Python counts from the end,
    and is empty, so that only the constant mode and the rows above it
    are returned. *)
Theorem truncate_oversize (self : trigtech) (new_size : Z) :
  const_index self < new_size / 2 -> new_size / 2 <= n self ->
  truncate self new_size = drop (Z.to_nat (const_index self)) (coeffs self).
Proof.
  intros Hlo Hhi.
  destruct (const_index_bounds self) as (Hci & _ & Hup).
  unfold truncate, py_slice, clip_index. fold (nrows (coeffs self)). fold (n self).
  replace (const_index self - new_size / 2 <? 0) with true
    by (symmetry; apply Z.ltb_lt; lia).
  replace (const_index self <? 0) with false by (symmetry; apply Z.ltb_ge; lia).
  replace (const_index self + new_size / 2 <? 0) with false
    by (symmetry; apply Z.ltb_ge; lia).
  rewrite Z.max_l by lia. rewrite Z.min_l by lia. rewrite Z.min_r by lia.
  rewrite drop_ge by (rewrite length_take; lia).
  rewrite take_ge by (unfold n, nrows; lia).
  reflexivity.
Qed.

(** *** The constructor from two arrays *)

Lemma init_arrays_both (v c : matrix) kw :
  size c <> 0 ->
  coeffs (init_arrays (Some v) (Some c) kw) = c /\
  ishappy (init_arrays (Some v) (Some c) kw) = true /\
  eps (init_arrays (Some v) (Some c) kw) = default F1em10 (kw_eps kw) /\
  hscale (init_arrays (Some v) (Some c) kw)
    = default (default F1em10 (kw_eps kw)) (kw_hscale kw) /\
  vscale (init_arrays (Some v) (Some c) kw)
    = default (default F1em10 (kw_eps kw)) (kw_vscale kw) /\
  maxLength (init_arrays (Some v) (Some c) kw) = 4096.
Proof.
  intros Hc. apply Z.eqb_neq in Hc.
  unfold init_arrays. cbn -[size get_isreal get_vscale force_real].
  destruct (size v =? 0); cbn -[size get_isreal get_vscale force_real];
    rewrite Hc; cbn -[size get_isreal get_vscale force_real];
    repeat split; reflexivity.
Qed.

(** *** __getitem__ *)

Lemma size_column_array (a : matrix) (idx : Z) :
  1 <= nrows a -> size (map (fun r => [nth (Z.to_nat idx) r C0]) a) <> 0.
Proof.
  intros Hn. apply size_first_row.
  destruct a; simpl in *; [unfold nrows in Hn; simpl in Hn; lia | lia].
Qed.

(** X12. Indexing a column: an index outside [0, m) fails the
    assertion, so that AssertionError is what the caller sees and the
    IndexError of the following test is never raised; an index inside
    gives a representation that holds that column of the coefficients
    and is marked happy whatever the flag of the parent. *)
Theorem getitem_column (self : trigtech) (idx : Z) :
  ncols (values self) = m self ->
  (0 <= idx < m self ->
   (r <- __getitem__ self idx ;; Ok (coeffs r, ishappy r))
   = Ok (map (fun row => [nth (Z.to_nat idx) row C0]) (coeffs self), true)) /\
  (~ (0 <= idx < m self) ->
   raised (__getitem__ self idx)
   = Some (AssertionError
       ("Index " +:+ pretty idx +:+ " out of range [0, " +:+ pretty (m self - 1) +:+ "]."))).
Proof.
  intros Hv. unfold __getitem__. split.
  - intros Hin.
    replace ((0 <=? idx) && (idx <? m self)) with true
      by (symmetry; apply andb_true_iff; split;
          [apply Z.leb_le | apply Z.ltb_lt]; lia).
    simpl negb. cbv iota. unfold column_array. rewrite Hv.
    fold (m self).
    replace ((0 <=? idx) && (idx <? m self)) with true
      by (symmetry; apply andb_true_iff; split;
          [apply Z.leb_le | apply Z.ltb_lt]; lia).
    cbn [obind].
    assert (Hn : 1 <= nrows (coeffs self)).
    { unfold m, nrows in *. destruct (coeffs self); simpl in *; lia. }
    destruct (init_arrays_both
                (map (fun r => [nth (Z.to_nat idx) r C0]) (values self))
                (map (fun r => [nth (Z.to_nat idx) r C0]) (coeffs self))
                (passed_kwargs self (isReal self))
                (size_column_array (coeffs self) idx Hn)) as (-> & -> & _).
    reflexivity.
  - intros Hout.
    replace ((0 <=? idx) && (idx <? m self)) with false; [reflexivity|].
    symmetry. apply andb_false_iff.
    destruct (Z.leb_spec 0 idx); [|left; reflexivity].
    right. apply Z.ltb_ge. lia.
Qed.

(** *** __deepcopy__ *)

(** X13. A deep copy keeps the coefficients and [eps], but not the
    rest of the state: the copy is marked happy whatever the flag of
    the original, [hscale] and [vscale] are both reset to [eps], and
    [maxLength] is the default of the constructor. *)
Theorem deepcopy_resets_state (self : trigtech) :
  size (coeffs self) <> 0 ->
  coeffs (__deepcopy__ self) = coeffs self /\
  eps (__deepcopy__ self) = eps self /\
  ishappy (__deepcopy__ self) = true /\
  hscale (__deepcopy__ self) = eps self /\
  vscale (__deepcopy__ self) = eps self /\
  maxLength (__deepcopy__ self) = 4096.
Proof.
  intros Hc. unfold __deepcopy__.
  destruct (init_arrays_both (values self) (coeffs self)
    {| kw_eps := Some (eps self); kw_hscale := Some (eps self); kw_vscale := None;
       kw_ishappy := Some (ishappy self); kw_isReal := None;
       kw_isreal := Some (isReal self); kw_simplify := None |} Hc)
    as (H1 & H2 & H3 & H4 & H5 & H6).
  cbn [default kw_eps kw_hscale kw_vscale] in *.
  repeat split; assumption.
Qed.

(** *** conj *)

Lemma forallb_map_negb (l : list bool) : forallb id (map negb l) = forallb negb l.
Proof. induction l as [|x l IH]; simpl; [reflexivity|]. now rewrite IH. Qed.

Lemma nth_all_true (l : list bool) :
  forallb id l = true -> forall j, nth j l true = true.
Proof.
  induction l as [|x l IH]; intros H j; [destruct j; reflexivity|].
  simpl in H. apply andb_true_iff in H as [Hx Hl].
  destruct j; simpl; [exact Hx | apply IH; exact Hl].
Qed.

(** No column is selected by the negation of a mask that is all true. *)
Lemma mask_at_negb_all_true (l : list bool) (j : nat) :
  forallb id l = true -> mask_at (map negb l) j = false.
Proof.
  intros H.
  assert (Hn : nth j (map negb l) false = false).
  { change false with (negb true) at 1. rewrite map_nth.
    now rewrite nth_all_true. }
  destruct l as [|x [|y l]]; [destruct j; reflexivity | | exact Hn].
  simpl in *. apply andb_true_iff in H as [-> _]. reflexivity.
Qed.

Lemma imap_snd_id {A} (l : list A) : forall (h : nat -> A -> A),
  (forall j z, h j z = z) -> imap h l = l.
Proof.
  induction l as [|x l IH]; intros h Hh; [reflexivity|].
  simpl. rewrite Hh. f_equal. apply IH. intros j z. apply Hh.
Qed.

Lemma zip_with_fst_id {A B} (h : A -> B -> A) (l : list A) :
  forall k : list B, (length l <= length k)%nat ->
  (forall x y, h x y = x) -> zip_with h l k = l.
Proof.
  induction l as [|x l IH]; intros k Hlen Hh; [reflexivity|].
  destruct k as [|y k]; simpl in *; [lia|].
  rewrite Hh. f_equal. apply IH; [lia | exact Hh].
Qed.

(** The coefficient array [conj] hands to the constructor. *)
Definition conj_coeffs (flags : list bool) (c : matrix) : matrix :=
  zip_with
    (fun row opposite =>
       imap (fun j z => if mask_at (map negb flags) j
                        then Cconj (nth j opposite C0) else z) row)
    c (rev c).

Lemma ncols_conj_coeffs (flags : list bool) (c : matrix) :
  ncols (conj_coeffs flags c) = ncols c.
Proof.
  unfold conj_coeffs. destruct c as [|r0 rest]; [reflexivity|].
  destruct (rev (r0 :: rest)) as [|o os] eqn:E.
  { apply (f_equal (@length _)) in E. rewrite length_rev in E. discriminate. }
  simpl. now rewrite length_imap.
Qed.

Lemma conj_mixed (trig : trigtech) :
  forallb negb (isReal trig) = false -> 1 <= m trig ->
  coeffs (conj trig) = conj_coeffs (isReal trig) (coeffs trig).
Proof.
  intros Hmix Hm. unfold conj. rewrite forallb_map_negb, Hmix.
  apply init_arrays_both. apply size_first_row.
  fold (conj_coeffs (isReal trig) (coeffs trig)).
  rewrite ncols_conj_coeffs. exact Hm.
Qed.

(** X14. [conj] leaves the coefficients as they are whenever the
    columns are flagged alike.  When every column is flagged real,
    nothing is selected for conjugation; when no column is flagged
    real, the test [np.all(id)] holds and the argument itself is
    returned, unconjugated.  Only with mixed flags is a column
    conjugated. *)
Theorem conj_uniform_flags (trig : trigtech) :
  forallb id (isReal trig) = true \/ forallb negb (isReal trig) = true ->
  1 <= m trig ->
  coeffs (conj trig) = coeffs trig /\
  (forallb negb (isReal trig) = true -> conj trig = trig).
Proof.
  intros Hflags Hm.
  assert (Hnon : forallb negb (isReal trig) = true -> conj trig = trig).
  { intros H. unfold conj. now rewrite forallb_map_negb, H. }
  split; [|exact Hnon].
  destruct (forallb negb (isReal trig)) eqn:Hmix.
  { now rewrite Hnon. }
  destruct Hflags as [Hreal | Hf]; [|discriminate].
  rewrite (conj_mixed trig Hmix Hm). unfold conj_coeffs.
  apply zip_with_fst_id; [now rewrite length_rev|].
  intros row opp. apply imap_snd_id. intros j z.
  now rewrite mask_at_negb_all_true.
Qed.

Lemma rev_lookup {A} (l : list A) (i : nat) :
  (i < length l)%nat -> rev l !! i = l !! (length l - S i)%nat.
Proof.
  intros Hi.
  destruct (lookup_lt_is_Some_2 (rev l) i) as [y Hy]; [now rewrite length_rev|].
  destruct (lookup_lt_is_Some_2 l (length l - S i)) as [z Hz]; [lia|].
  rewrite Hy, Hz. f_equal.
  rewrite <- (nth_lookup_Some _ _ y _ Hy), <- (nth_lookup_Some _ _ y _ Hz).
  now apply rev_nth.
Qed.

(** X15. With mixed flags, [conj] replaces entry (i, j) of every column
    j that is not flagged real by the conjugate of entry (n - 1 - i, j):
    [np.flipud] mirrors the rows about the middle of the array, whatever
    the row of the constant mode is.  The columns flagged real keep
    their entries. *)
Theorem conj_mirrors_rows (trig : trigtech) (i j : nat) (row opp : list C) :
  forallb negb (isReal trig) = false -> 1 <= m trig ->
  coeffs trig !! i = Some row ->
  coeffs trig !! (length (coeffs trig) - 1 - i)%nat = Some opp ->
  (j < length row)%nat ->
  exists row',
    coeffs (conj trig) !! i = Some row' /\
    row' !! j = Some (if mask_at (map negb (isReal trig)) j
                      then Cconj (nth j opp C0) else nth j row C0).
Proof.
  intros Hmix Hm Hrow Hopp Hj.
  rewrite (conj_mixed trig Hmix Hm). unfold conj_coeffs.
  pose proof (lookup_lt_Some _ _ _ Hrow) as Hi.
  unfold matrix in *.
  rewrite lookup_zip_with, Hrow, rev_lookup by exact Hi.
  replace (length (coeffs trig) - S i)%nat
    with (length (coeffs trig) - 1 - i)%nat by lia.
  rewrite Hopp. simpl. eexists. split; [reflexivity|].
  rewrite list_lookup_imap.
  destruct (lookup_lt_is_Some_2 row j Hj) as [z Hz]. rewrite Hz. simpl.
  now rewrite (nth_lookup_Some _ _ C0 _ Hz).
Qed.

(** *** happy *)

Lemma getrow_lt {A} (a : list (list A)) (i : nat) :
  (i < length a)%nat -> exists r, getrow a i = Ok r.
Proof.
  intros Hi. unfold getrow.
  destruct (lookup_lt_is_Some_2 a i Hi) as [r ->]. eauto.
Qed.

(** The folding of the magnitudes succeeds on every array with a row. *)
Lemma fold_coeffs_ok (a : fmatrix) :
  (1 <= length a)%nat -> exists r, fold_coeffs a = Ok r.
Proof.
  intros Hlen. unfold fold_coeffs.
  destruct (Nat.even (length a)) eqn:E.
  - assert (H2 : (2 <= length a)%nat).
    { destruct (length a) as [|[|k]] eqn:El; [lia | discriminate | lia]. }
    destruct (getrow_lt a (length a - 1)) as [top ->]; [lia|].
    destruct (getrow_lt a (length a / 2 - 1)) as [last ->].
    { pose proof (Nat.Div0.div_le_upper_bound (length a) 2 (length a)). lia. }
    cbn [obind]. rewrite !rev_app_distr. simpl. eauto.
  - destruct (getrow_lt a ((length a + 1) / 2 - 1)) as [last ->].
    { assert ((length a + 1) / 2 <= length a)%nat
        by (apply Nat.Div0.div_le_upper_bound; lia). lia. }
    cbn [obind]. rewrite rev_app_distr. simpl. eauto.
Qed.

Lemma happy_loop_length (len : Z) (tol : F) (args : list (list C)) :
  length (happy_loop len tol args).2 = length args.
Proof.
  induction args as [|col rest IH]; [reflexivity|].
  simpl. destruct (standardChopCmplx col tol <? len).
  - destruct (happy_loop len tol rest) as [hs cs]. simpl in *. now rewrite IH.
  - simpl. now rewrite length_map.
Qed.

Lemma length_columns (a : matrix) : length (columns a) = Z.to_nat (ncols a).
Proof. unfold columns. now rewrite length_map, length_seq. Qed.

(** X16. [happy] returns on every array with a row and a column: it
    stores the verdict in [ishappy], changes nothing else, and the
    cutoff it reports is odd.  Without rows it raises IndexError (the
    last row of the reversed array is read first), and with rows but no
    columns it raises ValueError (the maximum of the empty array of
    cutoffs). *)
Theorem happy_outcome (self : trigtech) :
  (n self = 0 -> raised (happy self) = Some IndexError) /\
  (1 <= n self -> m self = 0 -> raised (happy self) = Some ValueError) /\
  (1 <= m self ->
   exists h cutoff,
     happy self = Ok (set_ishappy self h, (h, cutoff)) /\ cutoff mod 2 = 1).
Proof.
  assert (Hfold : 1 <= n self ->
    exists r, fold_coeffs (map (map Cabs) (rev (coeffs self))) = Ok r).
  { intros Hn. apply fold_coeffs_ok. rewrite length_map, length_rev.
    unfold n, nrows in Hn. lia. }
  split; [|split].
  - intros H0. unfold happy.
    destruct (coeffs self) as [|r0 rest] eqn:Hc; [reflexivity|].
    unfold n, nrows in H0. rewrite Hc in H0. simpl in H0. lia.
  - intros Hn Hm. unfold happy.
    destruct (Hfold Hn) as [r ->]. cbn [obind].
    unfold columns. unfold m in Hm. rewrite Hm. reflexivity.
  - intros Hm.
    assert (Hn : 1 <= n self).
    { unfold m, n, nrows in *. destruct (coeffs self); simpl in *; lia. }
    unfold happy. destruct (Hfold Hn) as [r ->]. cbn [obind].
    pose proof (happy_loop_length
                  (nrows (map (map Cabs) (rev (coeffs self))))
                  (Fmul (eps self) F1) (columns (coeffs self))) as Hlen.
    rewrite length_columns in Hlen.
    destruct (happy_loop _ _ _) as [hs cs]. simpl in Hlen.
    destruct cs as [|c0 cs]; [unfold m in Hm; simpl in Hlen; lia|].
    simpl. eexists; eexists; split; [reflexivity|].
    Z.div_mod_to_equations. lia.
Qed.

(** *** populate *)

Lemma happy_has_rows (self : trigtech) x : happy self = Ok x -> 1 <= n self.
Proof.
  unfold happy, n, nrows. destruct (coeffs self) as [|r0 rest]; [discriminate|].
  intros _. simpl. lia.
Qed.

Lemma prolong_rows (self : trigtech) (Nout : Z) :
  1 <= n self -> 1 <= Nout ->
  exists r, prolong self Nout = Ok r /\ n r = Nout.
Proof.
  intros Hn Hout. rewrite prolong_stages.
  destruct (Nout =? n self) eqn:E0.
  { apply Z.eqb_eq in E0. eauto. }
  destruct (symmetrized_length (coeffs self) Hn) as (c1 & Nin' & -> & Hlen & _ & Hor).
  cbn [obind fst snd]. subst Nin'.
  destruct (resized_length c1 Nout) as (c' & -> & Hc'); [unfold n in Hn; lia | exact Hout |].
  cbn [obind]. eauto.
Qed.

(** The refinement is resolved at its call number [k + 1]: [k] rounds
    end unhappy, the next one ends happy, and its cutoff is returned. *)
Fixpoint resolves_after (k : nat) (refine : refiner) (self : trigtech) : option Z :=
  let '(vals, giveUp) := refine self in
  if giveUp then None
  else
    match populate_round (set_values self vals) with
    | Ok (self', (h, cutoff)) =>
        match k with
        | O => if h then Some cutoff else None
        | S k => if h then None else resolves_after k refine self'
        end
    | Raise _ => None
    end.

Lemma populate_round_rows (self self' : trigtech) (h : bool) (cutoff : Z) :
  populate_round self = Ok (self', (h, cutoff)) -> 1 <= n self'.
Proof.
  unfold populate_round. destruct (np_max_all _) as [mx|]; [|discriminate].
  cbn [obind]. intros H.
  pose proof (happy_has_rows _ _ H) as Hn.
  destruct (TrigFacts.happy_verdict _ _ _ _ H) as [_ ->]. exact Hn.
Qed.

Lemma populate_loop_resolves (refine : refiner) (cutoff : Z) (k : nat) :
  forall (self : trigtech) (local : option bool) (fuel : nat),
    resolves_after k refine self = Some cutoff -> 1 <= cutoff -> (k < fuel)%nat ->
    exists t, populate_loop fuel refine self local = Some (Ok (t, Some true)) /\
              n t = cutoff.
Proof.
  induction k as [|k IH]; intros self local fuel Hr Hc Hf;
    (destruct fuel as [|fuel]; [lia|]); simpl in *;
    destruct (refine self) as [vals giveUp];
    (destruct giveUp; [discriminate|]);
    destruct (populate_round (set_values self vals))
      as [[self1 [h c]]|] eqn:Hround; try discriminate;
    destruct h; try discriminate.
  - injection Hr as ->.
    destruct (prolong_rows self1 cutoff (populate_round_rows _ _ _ _ Hround) Hc)
      as (t & -> & Ht).
    eauto.
  - apply IH; [exact Hr | exact Hc | lia].
Qed.

(** X17. When the refinement is resolved, [populate] returns a
    representation that is marked happy and holds exactly as many
    coefficient rows as the cutoff that [happy] reported in the last
    round, however many unhappy rounds came before. *)
Theorem populate_resolves (refine : refiner) (self : trigtech) (k fuel : nat)
    (cutoff : Z) :
  resolves_after k refine self = Some cutoff -> 1 <= cutoff -> (k < fuel)%nat ->
  exists t,
    populate fuel refine self = Some (Ok t) /\ n t = cutoff /\ ishappy t = true.
Proof.
  intros Hr Hc Hf.
  destruct (populate_loop_resolves refine cutoff k self None fuel Hr Hc Hf)
    as (t & Ht & Hn).
  unfold populate. rewrite Ht. simpl. eexists. split; [reflexivity|].
  split; [exact Hn | reflexivity].
Qed.

(** *** cumsum *)

Lemma setrow_lt {A} (a : list (list A)) (i : nat) (r : list A) :
  (i < length a)%nat -> setrow a i r = Ok (<[i := r]> a).
Proof.
  intros H. unfold setrow. destruct (decide _); [reflexivity | contradiction].
Qed.

Lemma mul_rows_len (c : matrix) (w : list C) :
  length c = length w -> mul_rows c w = Ok (zip_with row_times c w).
Proof.
  intros H. unfold mul_rows. destruct (decide _); [reflexivity | contradiction].
Qed.

Lemma ncols_insert_0 {A} (a : list (list A)) (r : list A) :
  (0 < length a)%nat -> ncols (<[0%nat := r]> a) = Z.of_nat (length r).
Proof. destruct a; simpl; [lia | reflexivity]. Qed.

Lemma ncols_insert_S {A} (a : list (list A)) (i : nat) (r : list A) :
  (0 < i)%nat -> ncols (<[i := r]> a) = ncols a.
Proof. destruct a, i; simpl; try reflexivity; lia. Qed.

Lemma ncols_zip_row_times (c : matrix) (w : list C) :
  length c = length w -> ncols (zip_with row_times c w) = ncols c.
Proof.
  destruct c, w; simpl; try discriminate; [reflexivity|].
  intros _. unfold row_times. now rewrite length_map.
Qed.

Lemma ncols_app {A} (c k : list (list A)) :
  (0 < length c)%nat -> ncols (c ++ k) = ncols c.
Proof. destruct c; simpl; [lia | reflexivity]. Qed.

Lemma ncols_take {A} (c : list (list A)) (k : nat) :
  (0 < k)%nat -> ncols (take k c) = ncols c.
Proof. destruct c, k; simpl; try reflexivity; lia. Qed.

Lemma ncols_first {A} (c : list (list A)) (r : list A) :
  c !! 0%nat = Some r -> ncols c = Z.of_nat (length r).
Proof. destruct c; simpl; [discriminate|]. now intros [= ->]. Qed.

(** X20. The zero-mean test of [cumsum] reads the row after the
    constant mode before anything else, and a representation with fewer
    than three rows has no such row: [cumsum] then raises IndexError,
    whatever the coefficients are, and leaves its argument untouched. *)
Theorem cumsum_too_short (f : trigtech) (order : Z) :
  n f <= 2 -> cumsum f order = (f, Raise IndexError).
Proof.
  intros Hn. unfold cumsum, cumsum_check, getrow. unfold matrix in *.
  rewrite (lookup_ge_None_2 (coeffs f)); [reflexivity|].
  unfold cumsum_ind, n, nrows in *.
  destruct (_ mod 2 =? 0) eqn:E;
    [apply Z.eqb_eq in E | apply Z.eqb_neq in E]; Z.div_mod_to_equations; lia.
Qed.

(** The in-place part succeeds on three rows or more. *)
Lemma cumsum_inplace_ok (c : matrix) :
  3 <= nrows c -> 1 <= ncols c ->
  exists stored c' hd,
    cumsum_inplace c (nrows c) = Ok (stored, c', hd) /\
    Z.of_nat (length c') = 2 * hd + 1 /\ 1 <= hd /\ 1 <= ncols c' /\
    Z.of_nat (length c') = (if nrows c mod 2 =? 0 then nrows c + 1 else nrows c).
Proof.
  intros Hn Hm. unfold cumsum_inplace. unfold matrix in *.
  destruct (nrows c mod 2 =? 0) eqn:E.
  - apply Z.eqb_eq in E.
    assert (Hhalf : (0 < Z.to_nat (nrows c / 2) < length c)%nat)
      by (unfold nrows in *; Z.div_mod_to_equations; lia).
    rewrite setrow_lt by lia. cbn [obind].
    destruct (lookup_lt_is_Some_2 c 0) as [r0 Hr0]; [lia|].
    unfold getrow at 1.
    rewrite list_lookup_insert_ne, Hr0 by lia. cbn [obind].
    rewrite setrow_lt by (rewrite length_insert; lia). cbn [obind].
    unfold getrow.
    rewrite list_lookup_insert_eq by (rewrite length_insert; lia). cbn [obind].
    eexists; eexists; eexists; split; [reflexivity|].
    rewrite ncols_app by (rewrite !length_insert; lia).
    rewrite ncols_insert_0 by (rewrite length_insert; lia).
    rewrite length_app, !length_insert, length_map. simpl length.
    pose proof (ncols_first c r0 Hr0) as Hc0.
    unfold nrows in *. repeat split; try (Z.div_mod_to_equations; lia).
  - apply Z.eqb_neq in E.
    assert (Hhalf : (0 < Z.to_nat ((nrows c + 1) / 2) < length c)%nat)
      by (unfold nrows in *; Z.div_mod_to_equations; lia).
    rewrite setrow_lt by lia. cbn [obind].
    eexists; eexists; eexists; split; [reflexivity|].
    rewrite ncols_insert_S by lia. rewrite length_insert.
    unfold nrows in *. repeat split; try (Z.div_mod_to_equations; lia).
Qed.

(** The arithmetic on the widened array succeeds and gives back an
    array of the original length. *)
Lemma cumsum_coeffs_ok (c : matrix) (len hd order : Z) :
  Z.of_nat (length c) = 2 * hd + 1 -> 1 <= hd -> 1 <= ncols c ->
  Z.of_nat (length c) = (if len mod 2 =? 0 then len + 1 else len) ->
  exists c', cumsum_coeffs c len hd order = Ok c' /\ nrows c' = len /\ 1 <= ncols c'.
Proof.
  intros Hlen Hhd Hm Hpar. unfold cumsum_coeffs. unfold matrix in *.
  assert (Hidx : length (arange (- hd) (Z.to_nat (2 * hd + 1))) = length c)
    by (rewrite TrigFacts.length_arange; lia).
  rewrite mul_rows_len by (rewrite length_insert, length_map; lia).
  cbn [obind].
  set (c1 := zip_with row_times c _).
  assert (Hl1 : length c1 = length c).
  { subst c1. rewrite length_zip_with, length_insert, length_map. lia. }
  assert (Hm1 : ncols c1 = ncols c).
  { subst c1. apply ncols_zip_row_times. rewrite length_insert, length_map. lia. }
  assert (Hstep : exists c3,
    (if Z.odd order && (len mod 2 =? 0)
     then c2 <- setrow c1 0 (zero_row (Z.to_nat (ncols c))) ;;
          setrow c2 (Z.to_nat len) (zero_row (Z.to_nat (ncols c)))
     else Ok c1) = Ok c3 /\ length c3 = length c /\ 1 <= ncols c3).
  { destruct (Z.odd order && (len mod 2 =? 0)) eqn:Eo.
    - apply andb_true_iff in Eo as [_ Ev]. rewrite Ev in Hpar.
      rewrite setrow_lt by lia. cbn [obind].
      rewrite setrow_lt by (rewrite length_insert; lia).
      eexists; split; [reflexivity|].
      rewrite ncols_insert_S by lia.
      rewrite ncols_insert_0 by lia.
      rewrite !length_insert. unfold zero_row. rewrite repeat_length. lia.
    - eexists; split; [reflexivity|]. lia. }
  destruct Hstep as (c3 & -> & Hl3 & Hm3). cbn [obind].
  rewrite mul_rows_len by (rewrite length_map; lia). cbn [obind].
  rewrite setrow_lt by lia. cbn [obind].
  eexists; split; [reflexivity|].
  destruct (len mod 2 =? 0).
  - rewrite ncols_take by (rewrite length_insert; lia).
    rewrite ncols_insert_S by lia.
    unfold nrows. rewrite length_take, length_insert. lia.
  - rewrite ncols_insert_S by lia.
    unfold nrows. rewrite length_insert. lia.
Qed.

(** X21. On three rows or more (and at least one column) [cumsum] has
    two outcomes only: the RuntimeError of the zero-mean test, or a
    representation with as many coefficient rows as its argument.  No
    index is out of range and no shapes disagree on the way. *)
Theorem cumsum_outcomes (f : trigtech) (order : Z) :
  3 <= n f -> 1 <= m f ->
  raised (cumsum f order).2
    = Some (RuntimeError
        "Indefinite integrals are only possible for trigtech objects with zero mean!") \/
  (r <- (cumsum f order).2 ;; Ok (n r)) = Ok (n f).
Proof.
  intros Hn Hm. unfold cumsum, cumsum_check.
  destruct (getrow_lt (coeffs f) (Z.to_nat (cumsum_ind (n f)))) as [row ->].
  { unfold cumsum_ind, n, nrows in *.
    destruct (_ mod 2 =? 0) eqn:E;
      [apply Z.eqb_eq in E | apply Z.eqb_neq in E]; Z.div_mod_to_equations; lia. }
  cbn [obind]. destruct (bool_gt _ _); [left; reflexivity|]. right.
  destruct (cumsum_inplace_ok (coeffs f) Hn Hm)
    as (stored & c' & hd & Hin & Hlen & Hhd & Hm' & Hpar).
  fold (n f) in Hin, Hpar. rewrite Hin. cbn [snd].
  destruct (cumsum_coeffs_ok c' (n f) hd order Hlen Hhd Hm' Hpar)
    as (c'' & -> & Hrows & Hcols).
  cbn [obind]. f_equal. unfold n at 1.
  rewrite TrigFacts.init_arrays_coeffs.
  replace (size c'' =? 0) with false; [exact Hrows|].
  symmetry. apply Z.eqb_neq. now apply size_first_row.
Qed.

Variable Refine : (F -> list C) -> string -> refiner.

(** X18. A refinement object that gives up on its very first call makes
    the constructor fail with UnboundLocalError: [populate] leaves its
    loop before the local variable [ishappy] is ever assigned, and then
    reads it. *)
Theorem constructor_gives_up_at_once (r : refiner) (kw : tkwargs)
    (resample : option string) (fuel : nat) :
  (r (init_fields kw)).2 = true ->
  init_op Refine (S fuel) (OpRefine r) kw resample = Some (Raise UnboundLocalError).
Proof.
  intros Hg. unfold init_op, populate. simpl.
  destruct (r (init_fields kw)) as [vals giveUp]. simpl in Hg. subst giveUp.
  reflexivity.
Qed.

End Facts.
End TrigMoreFacts.

(** ** The further properties at concrete inputs *)
Module MoreExamples.
Import Trig TrigMore Exact TrigExamples.

Ltac evaluated := vm_compute; first [reflexivity | discriminate | intros; discriminate].

(** The constant 1 on four rows, resized to seven. *)
Lemma prolong_length_witness :
  (r <- prolong f_one 7 ;; Ok (n r)) = Ok 7.
Proof.
  apply (TrigMoreFacts.prolong_length (NU := numeric) (TE := trigext) f_one 7);
    evaluated.
Defined.

Lemma prolong_keeps_constant_mode_witness :
  (r <- prolong f_one 7 ;; Ok (coeffs r !! Z.to_nat (const_index r)))
  = Ok (coeffs f_one !! Z.to_nat (const_index f_one)).
Proof.
  apply (TrigMoreFacts.prolong_keeps_constant_mode (NU := numeric) (TE := trigext)
           f_one 7); evaluated.
Defined.

Lemma prolong_index_errors_witness :
  raised (prolong f_one 0) = Some IndexError.
Proof.
  apply (TrigMoreFacts.prolong_index_errors (NU := numeric) (TE := trigext) f_one 0).
  right. split; evaluated.
Defined.

Lemma prolong_coeffs_agrees_witness :
  (r <- prolong f_one 7 ;; Ok (coeffs r)) = prolong_coeffs (coeffs f_one) 7.
Proof.
  apply (TrigMoreFacts.prolong_coeffs_agrees (NU := numeric) (TE := trigext) f_one 7);
    evaluated.
Defined.

(** Four rows taken to five: the copy returns the four rows. *)
Lemma prolong_coeffs_next_odd_witness :
  prolong_coeffs (coeffs f_one) (n f_one + 1) = Ok (coeffs f_one) /\
  (r <- prolong f_one (n f_one + 1) ;; Ok (n r)) = Ok (n f_one + 1) /\
  (exists r0,
     coeffs f_one !! 0%nat = Some r0 /\
     (r <- prolong f_one (n f_one + 1) ;; Ok (coeffs r))
     = Ok ([map (Cmul (CofF Fhalf)) r0] ++ drop 1 (coeffs f_one)
           ++ [map (Cmul (CofF Fhalf)) r0])).
Proof.
  apply (TrigMoreFacts.prolong_coeffs_next_odd (NU := numeric) (TE := trigext) f_one);
    evaluated.
Defined.

Lemma sum_of_diff_witness :
  exists r row,
    diff f_one 1 0 = Ok r /\
    coeffs f_one !! Z.to_nat (const_index f_one) = Some row /\
    sum r = Ok (imap (fun j z =>
                  let z2 := Cmul (CofZ 2) (Cmul z (TrigFacts.diff_factor 0 1)) in
                  if mask_at (isReal r) j then CofF (Creal z2) else z2) row).
Proof.
  apply (TrigMoreFacts.sum_of_diff (NU := numeric) (TE := trigext) f_one 1).
  evaluated.
Defined.

(** Three rows asked of four: two are returned. *)
Lemma truncate_window_witness :
  truncate f_one 3 = take 2 (drop 1 (coeffs f_one)) /\
  nrows (truncate f_one 3) = 2.
Proof.
  apply (TrigMoreFacts.truncate_window (NU := numeric) f_one 3);
    evaluated.
Defined.

(** Six rows asked of four: the two rows from the constant mode on. *)
Lemma truncate_oversize_witness :
  truncate f_one 6 = drop 2 (coeffs f_one).
Proof.
  apply (TrigMoreFacts.truncate_oversize (NU := numeric) f_one 6);
    evaluated.
Defined.

Lemma getitem_column_witness :
  (0 <= 0 < m f_one ->
   (r <- __getitem__ f_one 0 ;; Ok (coeffs r, ishappy r))
   = Ok (map (fun row => [nth (Z.to_nat 0) row C0]) (coeffs f_one), true)) /\
  (~ (0 <= 0 < m f_one) ->
   raised (__getitem__ f_one 0)
   = Some (AssertionError
       ("Index " +:+ pretty 0 +:+ " out of range [0, " +:+ pretty (m f_one - 1) +:+ "]."))).
Proof.
  apply (TrigMoreFacts.getitem_column (NU := numeric) (TE := trigext) f_one 0).
  evaluated.
Defined.

(** A copy of an unhappy representation is happy. *)
Lemma deepcopy_resets_state_witness :
  ishappy (set_ishappy f_one false) = false /\
  ishappy (__deepcopy__ (set_ishappy f_one false)) = true.
Proof.
  split; [reflexivity|].
  refine (proj1 (proj2 (proj2 (TrigMoreFacts.deepcopy_resets_state
            (NU := numeric) (TE := trigext) (set_ishappy f_one false) _)))).
  evaluated.
Defined.

(** The conjugate of the constant i is the constant i. *)
Lemma conj_uniform_flags_witness :
  isReal f_i = [false] /\ coeffs (conj f_i) = [[(0, 1)]]%Q.
Proof.
  split; [evaluated|].
  refine (proj1 (TrigMoreFacts.conj_uniform_flags (NU := numeric) (TE := trigext)
                   f_i _ _)).
  - right. evaluated.
  - evaluated.
Defined.

(** Two columns on two rows: the first is real, the second is not. *)
Definition f_mixed : trigtech :=
  of_coeffs [[(1, 0); (0, 1)]; [(2, 0); (0, 3)]]%Q.

Lemma conj_mirrors_rows_witness :
  isReal f_mixed = [true; false] /\
  exists row',
    coeffs (conj f_mixed) !! 0%nat = Some row' /\
    row' !! 1%nat = Some (if mask_at (map negb (isReal f_mixed)) 1
                          then Cconj (nth 1 [(2, 0); (0, 3)]%Q C0)
                          else nth 1 [(1, 0); (0, 1)]%Q C0).
Proof.
  split; [evaluated|].
  apply (TrigMoreFacts.conj_mirrors_rows (NU := numeric) (TE := trigext)
           f_mixed 0 1 [(1, 0); (0, 1)]%Q [(2, 0); (0, 3)]%Q).
  - evaluated.
  - evaluated.
  - evaluated.
  - evaluated.
  - simpl. lia.
Defined.

Example conj_mixed_columns :
  coeffs (conj f_mixed) = [[(1, 0); (0, -3)]; [(2, 0); (0, -1)]]%Q.
Proof. vm_compute. reflexivity. Qed.

(** The callable of the constant 1, refined on 1, 2 and 4 points: two
    unhappy rounds, then the round on four points is happy with the
    cutoff 3. *)
Definition one (x : Q) : list cx := [(1, 0)%Q].

Lemma populate_resolves_witness :
  exists t,
    populate 5 (nested_refine 4 one "nested") (init_fields no_kwargs) = Some (Ok t) /\
    n t = 3 /\ ishappy t = true.
Proof.
  apply (TrigMoreFacts.populate_resolves (NU := numeric) (TE := trigext)
           (nested_refine 4 one "nested") (init_fields no_kwargs) 2 5 3).
  - evaluated.
  - lia.
  - lia.
Defined.

Example populate_one :
  match populate 5 (nested_refine 4 one "nested") (init_fields no_kwargs) with
  | Some (Ok t) => Some (coeffs t, ishappy t)
  | _ => None
  end = Some ([[(0, 0)]; [(1, 0)]; [(0, 0)]]%Q, true).
Proof. vm_compute. reflexivity. Qed.

Lemma constructor_gives_up_at_once_witness :
  init_op (NU := numeric) (nested_refine 4) 1
      (OpRefine (nested_refine 0 spike "nested")) no_kwargs None
    = Some (Raise UnboundLocalError).
Proof.
  apply (TrigMoreFacts.constructor_gives_up_at_once (NU := numeric) (TE := trigext)
           (nested_refine 4) (nested_refine 0 spike "nested") no_kwargs None 0).
  evaluated.
Defined.

(** The constant 1 on one row cannot be integrated; on four rows it
    can. *)
Lemma cumsum_too_short_witness :
  n f_1 = 1 /\ raised (cumsum f_1 1).2 = Some IndexError.
Proof.
  split; [evaluated|].
  rewrite (TrigMoreFacts.cumsum_too_short (NU := numeric) (TE := trigext) f_1 1);
    [reflexivity | evaluated].
Defined.

Lemma cumsum_outcomes_witness :
  raised (cumsum f_one 1).2
    = Some (RuntimeError
        "Indefinite integrals are only possible for trigtech objects with zero mean!") \/
  (r <- (cumsum f_one 1).2 ;; Ok (n r)) = Ok (n f_one).
Proof.
  apply (TrigMoreFacts.cumsum_outcomes (NU := numeric) (TE := trigext) f_one 1);
    evaluated.
Defined.

End MoreExamples.
